(** * patient_queue.py: a 0-indexed binary max-heap of patients, and its
    editable variant that tracks each patient's slot in a name -> index map.

    The two Python classes are embedded as state-passing code over one
    record of attributes.  Exceptions keep the state reached when they were
    raised, as a Python object keeps the mutations made before a raise. *)

From stdpp Require Import gmap strings list fin_maps sorting.
From Stdlib Require Import ZArith Lia.

Open Scope Z_scope.
Open Scope nat_scope.

(** ** Data model *)

(** Modelled from the spec: the [Patient] class lives in [classes.py], which
    is not part of the sources.  The queue reads only a unique [name] and a
    comparable, totally ordered numeric [priority]. *)
Record Patient := mkPatient { name : string; priority : Z }.

#[global] Instance Patient_eq_dec : EqDecision Patient.
Proof. solve_decision. Defined.

(** The attributes of a queue object: [self.data], [self.comparisons] and,
    for the editable class, [self.indices].  [cmp_log] is a ghost history of
    the priority comparisons evaluated so far (newest first); the source has
    no such attribute, it only gives the counter something to be measured
    against. *)
Record queue := mkQueue {
  data : list Patient;
  comparisons : nat;
  indices : gmap string nat;
  cmp_log : list (Z * Z)
}.

(** The class of [self], which decides how [_swap], [enqueue] and [dequeue]
    dispatch. *)
Inductive cls := PatientHeapQueue | EditablePatientHeapQueue.

Inductive exn := IndexError | KeyError | TypeError | RecursionError.

Inductive res (A : Type) :=
  | Ok (a : A) (q : queue)
  | Raise (e : exn) (q : queue).
Arguments Ok {A} a q.
Arguments Raise {A} e q.

Definition M (A : Type) := queue → res A.

Definition ret {A} (a : A) : M A := fun q => Ok a q.
Definition raise {A} (e : exn) : M A := fun q => Raise e q.
Definition bind {A B} (m : M A) (f : A → M B) : M B :=
  fun q => match m q with
           | Ok a q' => f a q'
           | Raise e q' => Raise e q'
           end.

Notation "'do' x <- m ; f" := (bind m (fun x => f))
  (at level 10, x name, m at level 100, f at level 200,
   format "'[v' 'do'  x  <-  m ; '/' f ']'").
Notation "'run' m ; f" := (bind m (fun _ => f))
  (at level 10, m at level 100, f at level 200,
   format "'[v' 'run'  m ; '/' f ']'").

(** The state a computation ends in, whether it returned or raised. *)
Definition final {A} (r : res A) : queue :=
  match r with Ok _ q => q | Raise _ q => q end.

(** ** Primitive accesses to the attributes *)

Definition set_data (l : list Patient) (q : queue) : queue :=
  mkQueue l (comparisons q) (indices q) (cmp_log q).
Definition set_indices (m : gmap string nat) (q : queue) : queue :=
  mkQueue (data q) (comparisons q) m (cmp_log q).

(** [len(self.data)] *)
Definition len_data : M nat := fun q => Ok (length (data q)) q.

(** [self.data[i]] for a non-negative [i] *)
Definition get_item (i : nat) : M Patient :=
  fun q => match data q !! i with
           | Some x => Ok x q
           | None => Raise IndexError q
           end.

(** [self.data[-1]] *)
Definition get_last : M Patient :=
  fun q => match last (data q) with
           | Some x => Ok x q
           | None => Raise IndexError q
           end.

(** [self.data[i] = x] for a non-negative [i] *)
Definition set_item (i : nat) (x : Patient) : M unit :=
  fun q => if decide (i < length (data q))
           then Ok tt (set_data (<[i:=x]> (data q)) q)
           else Raise IndexError q.

(** [self.data.append(x)] *)
Definition append (x : Patient) : M unit :=
  fun q => Ok tt (set_data (data q ++ [x]) q).

(** [self.data.pop()] *)
Definition pop : M Patient :=
  fun q => match last (data q) with
           | Some x => Ok x (set_data (removelast (data q)) q)
           | None => Raise IndexError q
           end.

(** [self.comparisons += 1] *)
Definition incr_comparisons : M unit :=
  fun q => Ok tt (mkQueue (data q) (S (comparisons q)) (indices q) (cmp_log q)).

(** [a.priority < b.priority]; the evaluation is recorded in the ghost log. *)
Definition priority_lt (a b : Patient) : M bool :=
  fun q => Ok (bool_decide (priority a < priority b)%Z)
              (mkQueue (data q) (comparisons q) (indices q)
                       ((priority a, priority b) :: cmp_log q)).

(** [a.priority > b.priority]; the evaluation is recorded in the ghost log. *)
Definition priority_gt (a b : Patient) : M bool :=
  fun q => Ok (bool_decide (priority a > priority b)%Z)
              (mkQueue (data q) (comparisons q) (indices q)
                       ((priority a, priority b) :: cmp_log q)).

(** [self.indices[k]] *)
Definition get_index (k : string) : M nat :=
  fun q => match indices q !! k with
           | Some i => Ok i q
           | None => Raise KeyError q
           end.

(** [self.indices[k] = i] *)
Definition set_index (k : string) (i : nat) : M unit :=
  fun q => Ok tt (set_indices (<[k:=i]> (indices q)) q).

(** [del self.indices[k]] *)
Definition del_index (k : string) : M unit :=
  fun q => match indices q !! k with
           | Some _ => Ok tt (set_indices (delete k (indices q)) q)
           | None => Raise KeyError q
           end.

(** [len(self.indices)] *)
Definition len_indices : M nat := fun q => Ok (size (indices q)) q.

(** ** The methods of [PatientHeapQueue], with [self] of class [c] *)

(** [_swap]: the base exchange, and the override that also re-records the
    two names at their new slots (left target first). *)
Definition _swap (c : cls) (i j : nat) : M unit :=
  do xj <- get_item j;
  do xi <- get_item i;
  run set_item i xj;
  run set_item j xi;
  match c with
  | PatientHeapQueue => ret tt
  | EditablePatientHeapQueue =>
      do a <- get_item i;
      run set_index (name a) i;
      do b <- get_item j;
      set_index (name b) j
  end.

Definition _parent_index (index : nat) : nat := (index - 1) / 2.

Definition _child_indices (index : nat) : list nat :=
  map (fun delta => 2 * index + delta) (seq 1 2).

(** The loop of [_max_child_priority_index]; [break] ends it with the
    candidate found so far. *)
Fixpoint max_child_loop (child_indices : list nat) (max_index : option nat)
  : M (option nat) :=
  match child_indices with
  | [] => ret max_index
  | index :: rest =>
      do n <- len_data;
      if decide (n ≤ index) then ret max_index
      else match max_index with
           | None => max_child_loop rest (Some index)
           | Some m =>
               run incr_comparisons;
               do a <- get_item index;
               do b <- get_item m;
               do g <- priority_gt a b;
               if g then max_child_loop rest (Some index)
               else max_child_loop rest (Some m)
           end
  end.

Definition _max_child_priority_index (child_indices : list nat)
  : M (option nat) :=
  max_child_loop child_indices None.

(** [_sift_up]; [fuel] bounds the depth of the recursion. *)
Fixpoint _sift_up_rec (c : cls) (fuel index : nat) : M unit :=
  match fuel with
  | 0 => raise RecursionError
  | S fuel =>
      if decide (index ≠ 0) then
        let parent_index := _parent_index index in
        do parent <- get_item parent_index;
        do child <- get_item index;
        run incr_comparisons;
        do b <- priority_lt parent child;
        if b then
          run _swap c index parent_index;
          _sift_up_rec c fuel parent_index
        else ret tt
      else ret tt
  end.

Definition _sift_up (c : cls) (index : nat) : M unit :=
  _sift_up_rec c (S index) index.

(** [_sift_down]; [fuel] bounds the depth of the recursion. *)
Fixpoint _sift_down_rec (c : cls) (fuel index : nat) : M unit :=
  match fuel with
  | 0 => raise RecursionError
  | S fuel =>
      do parent <- get_item index;
      let child_indices := _child_indices index in
      do child_index <- _max_child_priority_index child_indices;
      match child_index with
      | Some child_index =>
          do child <- get_item child_index;
          run incr_comparisons;
          do b <- priority_gt child parent;
          if b then
            run _swap c index child_index;
            _sift_down_rec c fuel child_index
          else ret tt
      | None => ret tt
      end
  end.

Definition _sift_down (c : cls) (index : nat) : M unit :=
  fun q => _sift_down_rec c (S (length (data q))) index q.

(** The body of [PatientHeapQueue.enqueue]. *)
Definition base_enqueue (c : cls) (patient : Patient) : M unit :=
  run append patient;
  do n <- len_data;
  _sift_up c (n - 1).

(** The body of [PatientHeapQueue.dequeue]. *)
Definition base_dequeue (c : cls) : M Patient :=
  do first_value <- get_item 0;
  do n <- len_data;
  run (if decide (n ≠ 1) then
         do dequeued <- pop;
         run set_item 0 dequeued;
         _sift_down c 0
       else
         run pop;
         ret tt);
  ret first_value.

(** ** The methods of [EditablePatientHeapQueue] and dynamic dispatch *)

Definition enqueue (c : cls) (patient : Patient) : M unit :=
  match c with
  | PatientHeapQueue => base_enqueue c patient
  | EditablePatientHeapQueue =>
      do n <- len_data;
      run set_index (name patient) n;
      base_enqueue c patient
  end.

Definition dequeue (c : cls) : M Patient :=
  match c with
  | PatientHeapQueue => base_dequeue c
  | EditablePatientHeapQueue =>
      do n <- len_indices;
      run (if decide (n ≠ 1) then
             do l <- get_last;
             run set_index (name l) 0;
             do f <- get_item 0;
             del_index (name f)
           else
             do f <- get_item 0;
             del_index (name f));
      do dequeued <- base_dequeue c;
      ret dequeued
  end.

(** [EditablePatientHeapQueue.remove]; [super()._sift_up] and
    [super()._sift_down] are the base methods run on the editable [self]. *)
Definition remove (patient_name : string) : M unit :=
  do removed_index <- get_index patient_name;
  run del_index patient_name;
  do last_item <- get_last;
  do l <- get_last;
  if decide (name l ≠ patient_name) then
    run set_item removed_index last_item;
    do last_item <- pop;
    run set_index (name last_item) removed_index;
    run _sift_up EditablePatientHeapQueue removed_index;
    _sift_down EditablePatientHeapQueue removed_index
  else
    run pop;
    ret tt.

(** [for x in xs: body(x)] *)
Fixpoint for_each {A} (body : A → M unit) (xs : list A) : M unit :=
  match xs with
  | [] => ret tt
  | x :: xs => run body x; for_each body xs
  end.

Definition _heapify (c : cls) (l : list Patient) : M unit :=
  for_each (enqueue c) l.

(** [range(n-1, -1, -1)] *)
Definition range_down (n : nat) : list nat := rev (seq 0 n).

Definition _fast_heapify (c : cls) (l : list Patient) : M unit :=
  run for_each append l;
  do n <- len_data;
  for_each (_sift_down c) (range_down n).

(** The object before any attribute is assigned. *)
Definition blank : queue := mkQueue [] 0 ∅ [].

(** [self.comparisons = 0] *)
Definition reset_comparisons : M unit :=
  fun q => Ok tt (mkQueue (data q) 0 (indices q) (cmp_log q)).

(** [PatientHeapQueue.__init__] *)
Definition base_init (c : cls) (start_data : option (list Patient))
    (fast : bool) : M unit :=
  let start_data := match start_data with None => [] | Some l => l end in
  run reset_comparisons;
  run (fun q => Ok tt (set_data [] q));
  if fast then _fast_heapify c start_data else _heapify c start_data.

(** [enumerate(start_data)]; iterating [None] is a [TypeError]. *)
Definition enumerate (start_data : option (list Patient))
  : M (list (nat * Patient)) :=
  match start_data with
  | None => raise TypeError
  | Some l => ret (imap pair l)
  end.

Definition __init__ (c : cls) (start_data : option (list Patient))
    (fast : bool) : M unit :=
  match c with
  | PatientHeapQueue => base_init c start_data fast
  | EditablePatientHeapQueue =>
      run (fun q => Ok tt (set_indices ∅ q));
      do items <- enumerate start_data;
      run for_each (fun ip => set_index (name ip.2) ip.1) items;
      base_init c start_data fast
  end.

(** The constructor call [cls(start_data, fast)]. *)
Definition new (c : cls) (start_data : option (list Patient)) (fast : bool)
  : res unit :=
  __init__ c start_data fast blank.

(** A client draining [n] patients: [[q.dequeue() for _ in range(n)]]. *)
Fixpoint dequeue_n (c : cls) (n : nat) : M (list Patient) :=
  match n with
  | 0 => ret []
  | S n =>
      do x <- dequeue c;
      do xs <- dequeue_n c n;
      ret (x :: xs)
  end.

(** Dequeue until the queue is empty. *)
Definition dequeue_all (c : cls) : M (list Patient) :=
  fun q => dequeue_n c (length (data q)) q.

(** ** Invariants *)

(** The max-heap property, as the data model states it. *)
Definition heap_inv (l : list Patient) : Prop :=
  ∀ i ch x y, ch = 2 * i + 1 ∨ ch = 2 * i + 2 →
    l !! i = Some x → l !! ch = Some y → (priority y ≤ priority x)%Z.

(** Every stored patient is recorded at its slot ... *)
Definition pos_fwd (q : queue) : Prop :=
  ∀ i x, data q !! i = Some x → indices q !! name x = Some i.
(** ... and every recorded name is the name of the patient at that slot. *)
Definition pos_bwd (q : queue) : Prop :=
  ∀ k i, indices q !! k = Some i → name <$> data q !! i = Some k.
Definition pos_inv (q : queue) : Prop := pos_fwd q ∧ pos_bwd q.

(** A well-formed queue object of class [c]. *)
Definition wf (c : cls) (q : queue) : Prop :=
  match c with
  | PatientHeapQueue => True
  | EditablePatientHeapQueue => pos_inv q
  end.

(** Strictly descending priorities. *)
Definition descending (l : list Patient) : Prop :=
  StronglySorted (fun x y => (priority x > priority y)%Z) l.

(** The list a run returned, if it returned. *)
Definition run_list {A} (r : res (list A)) : option (list A) :=
  match r with Ok l _ => Some l | Raise _ _ => None end.

(** The next call on the object a run left, unless the run raised. *)
Definition then_run {A B} (r : res A) (m : M B) : res B :=
  match r with Ok _ q => m q | Raise e q => Raise e q end.

(** ** Pure effects of the successful steps *)

(** The state after [self.comparisons += 1] and a comparison of [a] with [b]. *)
Definition tick (a b : Patient) (q : queue) : queue :=
  mkQueue (data q) (S (comparisons q)) (indices q)
          ((priority a, priority b) :: cmp_log q).

(** The state after a successful [_swap i j], where [xi] and [xj] were the
    patients at [i] and [j]. *)
Definition swapped (c : cls) (i j : nat) (xi xj : Patient) (q : queue) : queue :=
  mkQueue (<[j:=xi]> (<[i:=xj]> (data q)))
          (comparisons q)
          (match c with
           | PatientHeapQueue => indices q
           | EditablePatientHeapQueue =>
               <[name xi:=j]> (<[name xj:=i]> (indices q))
           end)
          (cmp_log q).

Definition is_child (p ch : nat) : Prop := ch = 2 * p + 1 ∨ ch = 2 * p + 2.

(** The patient at [ch], if any, does not outrank the patient at [p], if any. *)
Definition le_at (l : list Patient) (p ch : nat) : Prop :=
  ∀ x y, l !! p = Some x → l !! ch = Some y → (priority y ≤ priority x)%Z.

(** The outcome of [_max_child_priority_index(_child_indices(i))]. *)
Inductive select_R (i : nat) (q : queue) : option nat → queue → Prop :=
  | sel_none :
      length (data q) ≤ 2 * i + 1 → select_R i q None q
  | sel_one ci :
      length (data q) = 2 * i + 2 → ci = 2 * i + 1 →
      select_R i q (Some ci) q
  | sel_two a b ci :
      data q !! (2 * i + 1) = Some a → data q !! (2 * i + 2) = Some b →
      ci = (if bool_decide (priority b > priority a)%Z
            then 2 * i + 2 else 2 * i + 1) →
      select_R i q (Some ci) (tick b a q).

(** The runs of [_sift_up index], step by step. *)
Inductive sift_up_R (c : cls) : nat → queue → queue → Prop :=
  | su_root q : sift_up_R c 0 q q
  | su_stop i q p x :
      i ≠ 0 → data q !! _parent_index i = Some p → data q !! i = Some x →
      (priority x ≤ priority p)%Z →
      sift_up_R c i q (tick p x q)
  | su_swap i q p x q' :
      i ≠ 0 → data q !! _parent_index i = Some p → data q !! i = Some x →
      (priority p < priority x)%Z →
      sift_up_R c (_parent_index i)
        (swapped c i (_parent_index i) x p (tick p x q)) q' →
      sift_up_R c i q q'.

(** The runs of [_sift_down index], step by step. *)
Inductive sift_down_R (c : cls) : nat → queue → queue → Prop :=
  | sd_leaf i q p :
      data q !! i = Some p → length (data q) ≤ 2 * i + 1 →
      sift_down_R c i q q
  | sd_stop i q q1 ci p y :
      data q !! i = Some p → select_R i q (Some ci) q1 →
      data q !! ci = Some y → (priority y ≤ priority p)%Z →
      sift_down_R c i q (tick y p q1)
  | sd_swap i q q1 ci p y q' :
      data q !! i = Some p → select_R i q (Some ci) q1 →
      data q !! ci = Some y → (priority y > priority p)%Z →
      sift_down_R c ci (swapped c i ci p y (tick y p q1)) q' →
      sift_down_R c i q q'.

(** The counter and the ghost log advance together from [q] to [q']. *)
Definition counted (q q' : queue) : Prop :=
  ∃ evs, cmp_log q' = evs ++ cmp_log q ∧
         comparisons q' = length evs + comparisons q.

(** ** Auxiliary notions for the proofs *)

(** A property of the attributes that survives comparisons and in-range
    exchanges. *)
Definition stable (c : cls) (I : queue → Prop) : Prop :=
  (∀ a b q, I q → I (tick a b q)) ∧
  (∀ i j xi xj q, i ≠ j → data q !! i = Some xi → data q !! j = Some xj →
     I q → I (swapped c i j xi xj q)).

(** The state [enqueue] reaches before it sifts up: the patient appended
    and, in the editable class, its name recorded at the last slot. *)
Definition pushed (c : cls) (x : Patient) (q : queue) : queue :=
  mkQueue (data q ++ [x]) (comparisons q)
          (match c with
           | PatientHeapQueue => indices q
           | EditablePatientHeapQueue =>
               <[name x:=length (data q)]> (indices q)
           end)
          (cmp_log q).

(** The state the editable [dequeue] hands to the base method: the root's
    name forgotten and, unless the map has one entry, the last patient's
    name recorded at slot 0. *)
Definition unindexed (r l : Patient) (q : queue) : queue :=
  set_indices
    (delete (name r)
       (if decide (size (indices q) ≠ 1)
        then <[name l:=0]> (indices q) else indices q)) q.

(** The state [remove] reaches before it sifts: the last patient [l] moved
    into the freed slot [ri], the last slot dropped, the map updated. *)
Definition refilled (key : string) (ri : nat) (l : Patient)
    (body : list Patient) (q : queue) : queue :=
  mkQueue (<[ri:=l]> body) (comparisons q)
          (<[name l:=ri]> (delete key (indices q))) (cmp_log q).

(** During incremental construction the map also holds the names seeded for
    patients that are not enqueued yet: [P] says which names are pending. *)
Definition pos_bwd_or (P : string → Prop) (q : queue) : Prop :=
  ∀ k i, indices q !! k = Some i → name <$> data q !! i = Some k ∨ P k.

(** The map [EditablePatientHeapQueue.__init__] seeds from its input. *)
Definition seed (m : gmap string nat) (items : list (nat * Patient))
  : gmap string nat :=
  foldl (fun m ip => <[name ip.2:=ip.1]> m) m items.

(** [m] advances the counter and the log together, whether it returns or
    raises, from every state. *)
Definition keeps {A} (m : M A) : Prop := ∀ q, counted q (final (m q)).

(** Executable checks of the two invariants. *)
Definition heap_invb (l : list Patient) : bool :=
  forallb (fun ch =>
             match l !! _parent_index ch, l !! ch with
             | Some x, Some y => bool_decide (priority y ≤ priority x)%Z
             | _, _ => true
             end) (seq 1 (length l - 1)).

Definition pos_invb (q : queue) : bool :=
  forallb (fun ix => bool_decide (indices q !! name ix.2 = Some ix.1))
          (imap pair (data q))
  && forallb (fun kv => bool_decide (name <$> data q !! kv.2 = Some kv.1))
             (map_to_list (indices q)).

(** The patients of the example scenarios. *)
Definition a5 : Patient := mkPatient "a" 5.
Definition b9 : Patient := mkPatient "b" 9.
Definition c1 : Patient := mkPatient "c" 1.
Definition d7 : Patient := mkPatient "d" 7.
Definition a3 : Patient := mkPatient "a" 3.

(** The editable queue holding [b9] above [a5]. *)
Definition q_ba : queue :=
  mkQueue [b9; a5] 0 (<["a":=1]> (<["b":=0]> ∅)) [].

(** Among the slots [before ++ m :: after] of [l], slot [m] holds the first
    patient of greatest priority. *)
Definition first_max (l : list Patient) (before : list nat) (m : nat)
    (after : list nat) : Prop :=
  (∀ k x y, k ∈ before → l !! k = Some x → l !! m = Some y →
     (priority x < priority y)%Z) ∧
  (∀ k x y, k ∈ after → l !! k = Some x → l !! m = Some y →
     (priority x ≤ priority y)%Z).

(** [log2 1 + log2 2 + ... + log2 n]: the depths of the first [n] slots. *)
Fixpoint sum_log2 (n : nat) : nat :=
  match n with
  | 0 => 0
  | S k => sum_log2 k + Nat.log2 (S k)
  end.

(** The slot [n] levels above slot [i]: [n] times [(j - 1) // 2]. *)
Definition ancestor (n i : nat) : nat :=
  Nat.iter n (fun j => (j - 1) / 2) i.

(** ** Index arithmetic *)

Lemma parent_is_child i : i ≠ 0 → is_child (_parent_index i) i.
Proof.
  intros Hi. unfold is_child, _parent_index.
  pose proof (Nat.div_mod_eq (i - 1) 2) as E.
  pose proof (Nat.mod_upper_bound (i - 1) 2) as B.
  lia.
Qed.

Lemma is_child_parent p ch : is_child p ch → _parent_index ch = p ∧ ch ≠ 0 ∧ p < ch.
Proof.
  unfold is_child, _parent_index. intros [-> | ->]; repeat split; try lia.
  - replace (2 * p + 1 - 1) with (p * 2) by lia. apply Nat.div_mul. lia.
  - replace (2 * p + 2 - 1) with (1 + p * 2) by lia.
    rewrite Nat.div_add by lia. reflexivity.
Qed.

Lemma parent_lt i : i ≠ 0 → _parent_index i < i.
Proof. intros Hi. destruct (parent_is_child i Hi); lia. Qed.

Lemma child_indices_eq i : _child_indices i = [2 * i + 1; 2 * i + 2].
Proof. reflexivity. Qed.

(** ** The primitive steps *)

Lemma swap_ok c i j xi xj q :
  i ≠ j → data q !! i = Some xi → data q !! j = Some xj →
  _swap c i j q = Ok tt (swapped c i j xi xj q).
Proof.
  intros Hne Hi Hj. unfold _swap, bind, get_item, set_item.
  rewrite Hj, Hi.
  pose proof (lookup_lt_Some _ _ _ Hi) as Li.
  pose proof (lookup_lt_Some _ _ _ Hj) as Lj.
  destruct (decide (i < length (data q))); [|lia]. simpl.
  rewrite length_insert.
  destruct (decide (j < length (data q))); [|lia]. simpl.
  destruct c; [reflexivity|]. cbn [data set_data].
  rewrite list_lookup_insert_ne by congruence.
  rewrite list_lookup_insert_eq by lia. cbn [data set_data].
  rewrite list_lookup_insert_eq by (rewrite length_insert; lia).
  reflexivity.
Qed.

Lemma swapped_length c i j xi xj q :
  length (data (swapped c i j xi xj q)) = length (data q).
Proof. simpl. by rewrite !length_insert. Qed.

Lemma swapped_lookup c i j xi xj q k :
  i ≠ j → data q !! i = Some xi → data q !! j = Some xj →
  data (swapped c i j xi xj q) !! k =
    if decide (k = j) then Some xi
    else if decide (k = i) then Some xj else data q !! k.
Proof.
  intros Hne Hi Hj. simpl.
  pose proof (lookup_lt_Some _ _ _ Hi) as Li.
  pose proof (lookup_lt_Some _ _ _ Hj) as Lj.
  destruct (decide (k = j)) as [->|Hkj].
  - rewrite list_lookup_insert_eq; [done | by rewrite length_insert].
  - rewrite list_lookup_insert_ne by congruence.
    destruct (decide (k = i)) as [->|Hki].
    + by rewrite list_lookup_insert_eq.
    + by rewrite list_lookup_insert_ne.
Qed.

Lemma select_run i q :
  ∃ r q1, _max_child_priority_index (_child_indices i) q = Ok r q1 ∧
          select_R i q r q1.
Proof.
  rewrite child_indices_eq. unfold _max_child_priority_index.
  cbn [max_child_loop]. unfold bind at 1. unfold len_data at 1.
  destruct (decide (length (data q) ≤ 2 * i + 1)) as [H1|H1].
  { eexists _, _. split; [reflexivity|]. by constructor. }
  unfold bind at 1. unfold len_data at 1.
  destruct (decide (length (data q) ≤ 2 * i + 2)) as [H2|H2].
  { eexists _, _. split; [reflexivity|]. apply sel_one; lia. }
  destruct (lookup_lt_is_Some_2 (data q) (2 * i + 1)) as [a Ha]; [lia|].
  destruct (lookup_lt_is_Some_2 (data q) (2 * i + 2)) as [b Hb]; [lia|].
  unfold bind, incr_comparisons, get_item, priority_gt, ret. cbn [data].
  rewrite Hb. cbn [data]. rewrite Ha. cbn [data comparisons indices cmp_log].
  eexists _, _. split; [|by eapply (sel_two i q a b)].
  unfold tick. by destruct (bool_decide _).
Qed.

Lemma select_none i q q1 :
  select_R i q None q1 → q1 = q ∧ length (data q) ≤ 2 * i + 1.
Proof. by inversion 1. Qed.

Lemma select_some i q ci q1 :
  select_R i q (Some ci) q1 →
  is_child i ci ∧ ci < length (data q) ∧
  data q1 = data q ∧ indices q1 = indices q ∧
  (∀ ch, is_child i ch → le_at (data q) ci ch) ∧
  (ci = 2 * i + 2 →
   ∃ a b, data q !! (2 * i + 1) = Some a ∧ data q !! (2 * i + 2) = Some b ∧
          (priority b > priority a)%Z).
Proof.
  unfold is_child, le_at.
  inversion 1 as [|ci' Hlen Hci|a b ci' Ha Hb Hci]; subst.
  - split_and!; [lia|lia|done|done| |lia].
    intros ch [->| ->] x y Hx Hy; [naive_solver lia|].
    apply lookup_lt_Some in Hy. lia.
  - pose proof (lookup_lt_Some _ _ _ Ha). pose proof (lookup_lt_Some _ _ _ Hb).
    case_bool_decide.
    + split_and!; [lia|lia|done|done| |by eauto].
      intros ch [->| ->] x y Hx Hy; simplify_eq; lia.
    + split_and!; [lia|lia|done|done| |lia].
      intros ch [->| ->] x y Hx Hy; simplify_eq; lia.
Qed.

Lemma select_det i q r q1 r' q1' :
  select_R i q r q1 → select_R i q r' q1' → r = r' ∧ q1 = q1'.
Proof.
  intros H H'.
  destruct H as [Hl|ci Hl ->|a b ci Ha Hb ->];
    destruct H' as [Hl'|ci' Hl' ->|a' b' ci' Ha' Hb' ->];
    try (pose proof (lookup_lt_Some _ _ _ Hb));
    try (pose proof (lookup_lt_Some _ _ _ Hb'));
    try lia; try done.
  by simplify_eq.
Qed.

(** One step of [_sift_up] away from the root. *)
Lemma sift_up_rec_step c fuel i q p x :
  i ≠ 0 → data q !! _parent_index i = Some p → data q !! i = Some x →
  _sift_up_rec c (S fuel) i q =
    if bool_decide (priority p < priority x)%Z
    then _sift_up_rec c fuel (_parent_index i)
           (swapped c i (_parent_index i) x p (tick p x q))
    else Ok tt (tick p x q).
Proof.
  intros Hi Hp Hx. cbn [_sift_up_rec].
  destruct (decide (i ≠ 0)); [|done].
  unfold bind at 1. unfold get_item at 1. rewrite Hp.
  unfold bind at 1. unfold get_item at 1. rewrite Hx.
  unfold bind at 1. unfold incr_comparisons at 1.
  unfold bind at 1. unfold priority_lt at 1. cbn [data comparisons indices cmp_log].
  fold (tick p x q).
  destruct (bool_decide _); [|done].
  unfold bind.
  rewrite (swap_ok c i (_parent_index i) x p (tick p x q)); [done| |done..].
  pose proof (parent_lt i Hi). lia.
Qed.

Lemma sift_up_run c fuel i q :
  i < fuel → i < length (data q) →
  ∃ q', _sift_up_rec c fuel i q = Ok tt q' ∧ sift_up_R c i q q'.
Proof.
  revert i q. induction fuel as [|fuel IH]; intros i q Hf Hi; [lia|].
  destruct (decide (i = 0)) as [->|Hne].
  { exists q. split; [done|constructor]. }
  pose proof (parent_lt i Hne) as Hlt.
  destruct (lookup_lt_is_Some_2 (data q) (_parent_index i)) as [p Hp]; [lia|].
  destruct (lookup_lt_is_Some_2 (data q) i) as [x Hx]; [lia|].
  rewrite (sift_up_rec_step c fuel i q p x Hne Hp Hx).
  case_bool_decide as Hcmp.
  - destruct (IH (_parent_index i)
                (swapped c i (_parent_index i) x p (tick p x q)))
      as (q' & Hrun & HR); [lia|rewrite swapped_length; simpl; lia|].
    exists q'. split; [done|]. by eapply su_swap.
  - eexists. split; [done|]. apply su_stop; [done..|lia].
Qed.

(** One step of [_sift_down]. *)
Lemma sift_down_rec_step c fuel i q p r q1 :
  data q !! i = Some p → select_R i q r q1 →
  _sift_down_rec c (S fuel) i q =
    match r with
    | None => Ok tt q
    | Some ci =>
        match data q !! ci with
        | Some y =>
            if bool_decide (priority y > priority p)%Z
            then _sift_down_rec c fuel ci (swapped c i ci p y (tick y p q1))
            else Ok tt (tick y p q1)
        | None => Raise IndexError q1
        end
    end.
Proof.
  intros Hp Hsel. cbn [_sift_down_rec].
  unfold bind at 1. unfold get_item at 1. rewrite Hp.
  unfold bind at 1.
  destruct (select_run i q) as (r' & q1' & -> & Hsel').
  destruct (select_det _ _ _ _ _ _ Hsel' Hsel) as [-> ->].
  destruct r as [ci|].
  2:{ apply select_none in Hsel as [-> _]. done. }
  apply select_some in Hsel as (Hch & Hlt & Hd & Hind & _).
  unfold bind at 1. unfold get_item at 1. rewrite Hd.
  destruct (data q !! ci) as [y|] eqn:Hy; [|done].
  unfold bind at 1. unfold incr_comparisons at 1.
  unfold bind at 1. unfold priority_gt at 1. cbn [data comparisons indices cmp_log].
  fold (tick y p q1).
  destruct (bool_decide _); [|done].
  unfold bind.
  rewrite (swap_ok c i ci p y (tick y p q1)); [done| |simpl; congruence..].
  destruct Hch; lia.
Qed.

Lemma sift_down_run c fuel i q :
  length (data q) - i ≤ fuel → i < length (data q) →
  ∃ q', _sift_down_rec c fuel i q = Ok tt q' ∧ sift_down_R c i q q'.
Proof.
  revert i q. induction fuel as [|fuel IH]; intros i q Hf Hi; [lia|].
  destruct (lookup_lt_is_Some_2 (data q) i) as [p Hp]; [lia|].
  destruct (select_run i q) as (r & q1 & _ & Hsel).
  rewrite (sift_down_rec_step c fuel i q p r q1 Hp Hsel).
  destruct r as [ci|].
  2:{ exists q. split; [done|]. apply select_none in Hsel as [-> ?].
      by eapply sd_leaf. }
  pose proof (select_some _ _ _ _ Hsel) as (Hch & Hlt & Hd & Hind & _).
  destruct (lookup_lt_is_Some_2 (data q) ci) as [y Hy]; [lia|].
  rewrite Hy. case_bool_decide as Hcmp.
  - destruct (IH ci (swapped c i ci p y (tick y p q1)))
      as (q' & Hrun & HR).
    { rewrite swapped_length. simpl. rewrite Hd. destruct Hch; lia. }
    { rewrite swapped_length. simpl. rewrite Hd. lia. }
    exists q'. split; [done|]. by eapply sd_swap.
  - eexists. split; [done|]. eapply sd_stop; [done..|lia].
Qed.

(** ** What the sift runs preserve *)

Lemma insert_Permutation (l : list Patient) i x y :
  l !! i = Some x → y :: l ≡ₚ x :: <[i:=y]> l.
Proof.
  revert i. induction l as [|a l IH]; intros [|i] Hi; simplify_eq/=.
  - apply Permutation_swap.
  - rewrite Permutation_swap. rewrite (IH i Hi). apply Permutation_swap.
Qed.

Lemma swapped_Permutation c i j xi xj q :
  i ≠ j → data q !! i = Some xi → data q !! j = Some xj →
  data (swapped c i j xi xj q) ≡ₚ data q.
Proof.
  intros Hne Hi Hj. simpl.
  apply (Permutation_cons_inv (a := xj)).
  rewrite (insert_Permutation (data q) i xi xj Hi).
  symmetry. apply insert_Permutation.
  by rewrite list_lookup_insert_ne.
Qed.

Lemma swapped_pos_fwd i j xi xj q :
  i ≠ j → data q !! i = Some xi → data q !! j = Some xj →
  pos_fwd q → pos_fwd (swapped EditablePatientHeapQueue i j xi xj q).
Proof.
  intros Hne Hi Hj Hf k x. rewrite swapped_lookup by done.
  pose proof (Hf _ _ Hi) as Fi. pose proof (Hf _ _ Hj) as Fj.
  cbn [indices swapped].
  destruct (decide (k = j)) as [->|Hkj].
  { intros [= ->]. by rewrite lookup_insert_eq. }
  destruct (decide (k = i)) as [->|Hki].
  { intros [= ->]. rewrite lookup_insert_ne by congruence.
    by rewrite lookup_insert_eq. }
  intros Hk. pose proof (Hf _ _ Hk) as Fk.
  rewrite !lookup_insert_ne by congruence. done.
Qed.

Lemma swapped_pos_bwd i j xi xj q :
  i ≠ j → data q !! i = Some xi → data q !! j = Some xj →
  pos_bwd q → pos_bwd (swapped EditablePatientHeapQueue i j xi xj q).
Proof.
  intros Hne Hi Hj Hb k v. rewrite swapped_lookup by done.
  cbn [indices swapped].
  destruct (decide (k = name xi)) as [->|Hki].
  { rewrite lookup_insert_eq. intros [= <-]. by rewrite decide_True. }
  rewrite lookup_insert_ne by done.
  destruct (decide (k = name xj)) as [->|Hkj].
  { rewrite lookup_insert_eq. intros [= <-].
    rewrite decide_False by done. by rewrite decide_True. }
  rewrite lookup_insert_ne by done. intros Hk.
  pose proof (Hb _ _ Hk) as Bk.
  destruct (decide (v = j)) as [->|?].
  { rewrite Hj in Bk. simplify_eq/=. }
  destruct (decide (v = i)) as [->|?].
  { rewrite Hi in Bk. simplify_eq/=. }
  done.
Qed.

Lemma counted_refl q : counted q q.
Proof. by exists []. Qed.

Lemma counted_trans q1 q2 q3 : counted q1 q2 → counted q2 q3 → counted q1 q3.
Proof.
  intros (e1 & L1 & C1) (e2 & L2 & C2). exists (e2 ++ e1).
  rewrite L2, L1, C2, C1, length_app, <-app_assoc. split; [done|lia].
Qed.

Lemma counted_tick a b q : counted q (tick a b q).
Proof. by exists [(priority a, priority b)]. Qed.

Lemma counted_le q q' : counted q q' → comparisons q ≤ comparisons q'.
Proof. intros (e & _ & ->). lia. Qed.

Lemma sift_up_R_stable c I i q q' :
  stable c I → sift_up_R c i q q' → I q → I q'.
Proof.
  intros [Ht Hs]. induction 1 as [|i q p x|i q p x q' Hi Hp Hx Hlt _ IH];
    intros HI; [done|by apply Ht|].
  apply IH, Hs, Ht; [|done..]. pose proof (parent_lt i Hi). lia.
Qed.

Lemma select_R_stable c I i q r q1 :
  stable c I → select_R i q r q1 → I q → I q1.
Proof. intros [Ht _]. destruct 1; auto. Qed.

Lemma sift_down_R_stable c I i q q' :
  stable c I → sift_down_R c i q q' → I q → I q'.
Proof.
  intros HS. pose proof HS as [Ht Hs].
  induction 1 as [|i q q1 ci p y Hp Hsel Hy Hle
                  |i q q1 ci p y q' Hp Hsel Hy Hgt _ IH]; intros HI; [done|..].
  - eapply Ht, select_R_stable; eauto.
  - pose proof (select_some _ _ _ _ Hsel) as (Hch & _ & Hd & _).
    apply IH, Hs, Ht; [| simpl; congruence..|by eapply select_R_stable].
    destruct Hch; lia.
Qed.

Lemma stable_length c n : stable c (fun q => length (data q) = n).
Proof.
  split; [done|]. intros. by rewrite swapped_length.
Qed.

Lemma stable_perm c l : stable c (fun q => data q ≡ₚ l).
Proof.
  split; [done|]. intros. by rewrite swapped_Permutation.
Qed.

Lemma stable_counted c q0 : stable c (counted q0).
Proof.
  split.
  - intros a b q H. eapply counted_trans; [done|apply counted_tick].
  - intros i j xi xj q _ _ _ (e & L & C). by exists e.
Qed.

Lemma stable_pos_fwd : stable EditablePatientHeapQueue pos_fwd.
Proof. split; [done|]. intros. by apply swapped_pos_fwd. Qed.

Lemma stable_pos_bwd : stable EditablePatientHeapQueue pos_bwd.
Proof. split; [done|]. intros. by apply swapped_pos_bwd. Qed.

Lemma stable_pos_inv : stable EditablePatientHeapQueue pos_inv.
Proof.
  split; [done|]. intros ?????? Hi Hj [??].
  split; [by apply swapped_pos_fwd|by apply swapped_pos_bwd].
Qed.

Lemma stable_indices m : stable PatientHeapQueue (fun q => indices q = m).
Proof. by split. Qed.

Lemma stable_wf c : stable c (wf c).
Proof. destruct c; [by split|apply stable_pos_inv]. Qed.

(** ** Heap order through the sifts *)

Lemma heap_inv_alt l : heap_inv l ↔ ∀ p ch, is_child p ch → le_at l p ch.
Proof.
  unfold heap_inv, is_child, le_at. split; intros H.
  - intros p ch Hch x y. by apply H.
  - intros i ch x y Hch. by apply H.
Qed.

Lemma is_child_inj p p' ch : is_child p ch → is_child p' ch → p = p'.
Proof. unfold is_child. lia. Qed.

Lemma sift_up_R_heap c i q q' :
  sift_up_R c i q q' →
  (∀ p ch, is_child p ch → ch ≠ i → p ≠ i → le_at (data q) p ch) →
  (∀ g ch, is_child g i → is_child i ch → le_at (data q) g ch) →
  (data q' = data q ∧ (i ≠ 0 → le_at (data q) (_parent_index i) i))
  ∨ heap_inv (data q').
Proof.
  induction 1 as [|i q p x Hi Hp Hx Hle|i q p x q' Hi Hp Hx Hlt _ IH];
    intros W1 W2.
  - left. by split.
  - left. split; [done|]. intros _ ? ? ? ?. simplify_eq/=. done.
  - right.
    pose proof (parent_is_child i Hi) as Hc.
    pose proof (parent_lt i Hi) as Hpi.
    set (pi := _parent_index i) in *.
    set (q1 := swapped c i pi x p (tick p x q)) in *.
    assert (Hl1 : ∀ k, data q1 !! k =
       if decide (k = pi) then Some x
       else if decide (k = i) then Some p else data q !! k).
    { intros k. unfold q1. rewrite swapped_lookup; [done|lia|done..]. }
    destruct IH as [[-> Hroot]|HH]; [| |rewrite heap_inv_alt|done].
    + (* no exchange above [i] touches pairs away from [pi] *)
      intros p' ch Hch Hne1 Hne2 x' y'. rewrite !Hl1.
      rewrite (decide_False (P := p' = pi)) by done.
      rewrite (decide_False (P := ch = pi)) by done.
      destruct (decide (ch = i)) as [->|Hchi].
      { destruct Hne2. by eapply is_child_inj. }
      destruct (decide (p' = i)) as [->|Hp'i].
      * intros [= <-] Hy. eapply (W2 pi ch); eauto.
      * apply W1; auto.
    + intros g ch Hg Hch x' y'. rewrite !Hl1.
      destruct (is_child_parent _ _ Hg) as (_ & _ & Hgl).
      destruct (is_child_parent _ _ Hch) as (_ & _ & Hchl).
      rewrite (decide_False (P := g = pi)) by lia.
      rewrite (decide_False (P := g = i)) by lia.
      rewrite (decide_False (P := ch = pi)) by lia.
      intros Hx'.
      assert (priority p ≤ priority x')%Z as Hpx.
      { eapply (W1 g pi); eauto; lia. }
      destruct (decide (ch = i)) as [->|Hchi].
      * by intros [= <-].
      * intros Hy.
        assert (priority y' ≤ priority p)%Z; [|lia].
        eapply (W1 pi ch); eauto; lia.
    + intros p' ch Hch x' y'. rewrite !Hl1.
      destruct (decide (ch = pi)) as [->|Hchpi].
      { destruct (is_child_parent _ _ Hch) as (<- & Hn0 & Hlt').
        rewrite (decide_False (P := _parent_index pi = pi)) by lia.
        rewrite (decide_False (P := _parent_index pi = i)) by lia.
        intros Hx' [= <-]. eapply (Hroot Hn0).
        - rewrite Hl1. rewrite decide_False by lia.
          rewrite decide_False by lia. done.
        - rewrite Hl1. by rewrite decide_True. }
      destruct (decide (ch = i)) as [->|Hchi].
      { rewrite (is_child_inj _ _ _ Hch Hc). rewrite decide_True by done.
        intros [= <-] [= <-]. lia. }
      destruct (decide (p' = pi)) as [->|Hp'pi].
      { intros [= <-] Hy.
        assert (priority y' ≤ priority p)%Z; [|lia].
        eapply (W1 pi ch); eauto; lia. }
      destruct (decide (p' = i)) as [->|Hp'i].
      { intros [= <-] Hy. eapply (W2 pi ch); eauto. }
      apply W1; auto.
Qed.

Lemma sift_down_R_heap c lo i q q' :
  sift_down_R c i q q' → lo ≤ i →
  (∀ p ch, is_child p ch → lo ≤ p → p ≠ i → le_at (data q) p ch) →
  (∀ g ch, is_child g i → is_child i ch → lo ≤ g → le_at (data q) g ch) →
  ∀ p ch, is_child p ch → lo ≤ p → le_at (data q') p ch.
Proof.
  induction 1 as [i q p Hp Hlen|i q q1 ci p y Hp Hsel Hy Hle
                  |i q q1 ci p y q' Hp Hsel Hy Hgt _ IH];
    intros Hlo D1 D2 p' ch Hch Hlop.
  - destruct (decide (p' = i)) as [->|?]; [|by apply D1].
    intros x' y' _ Hy'. apply lookup_lt_Some in Hy'.
    destruct Hch; lia.
  - pose proof (select_some _ _ _ _ Hsel) as (Hci & _ & Hd & _ & Hmax & _).
    cbn [data tick]. rewrite Hd.
    destruct (decide (p' = i)) as [->|?]; [|by apply D1].
    intros x' y' Hx' Hy'. simplify_eq.
    pose proof (Hmax ch Hch _ _ Hy Hy'). lia.
  - pose proof (select_some _ _ _ _ Hsel) as (Hci & _ & Hd & _ & Hmax & _).
    destruct (is_child_parent _ _ Hci) as (_ & _ & Hici).
    set (q2 := swapped c i ci p y (tick y p q1)) in *.
    assert (Hl2 : ∀ k, data q2 !! k =
       if decide (k = ci) then Some p
       else if decide (k = i) then Some y else data q !! k).
    { intros k. unfold q2. rewrite swapped_lookup; cbn [data tick];
        rewrite ?Hd; [done|lia|done..]. }
    apply IH; [lia| | |done..].
    + intros p2 ch2 Hch2 Hlo2 Hne x' y'. rewrite !Hl2.
      rewrite (decide_False (P := p2 = ci)) by done.
      destruct (decide (ch2 = ci)) as [->|Hc2].
      { rewrite (is_child_inj _ _ _ Hch2 Hci). rewrite decide_True by done.
        intros [= <-] [= <-]. lia. }
      destruct (decide (p2 = i)) as [->|Hp2].
      { destruct (is_child_parent _ _ Hch2) as (_ & _ & ?).
        rewrite (decide_False (P := ch2 = i)) by lia.
        intros [= <-] Hy'. by eapply (Hmax ch2). }
      destruct (decide (ch2 = i)) as [->|Hc2i].
      { intros Hx' [= <-]. eapply (D2 p2 ci); eauto. }
      apply D1; auto.
    + intros g ch2 Hg Hch2 _ x' y'. rewrite !Hl2.
      rewrite (is_child_inj _ _ _ Hg Hci).
      destruct (is_child_parent _ _ Hch2) as (_ & _ & ?).
      rewrite (decide_False (P := i = ci)) by lia.
      rewrite (decide_True (P := i = i)) by done.
      rewrite (decide_False (P := ch2 = ci)) by lia.
      rewrite (decide_False (P := ch2 = i)) by lia.
      intros [= <-] Hy'. eapply (D1 ci ch2); eauto; lia.
Qed.

Lemma heap_inv_root_max l r :
  heap_inv l → l !! 0 = Some r → ∀ x, x ∈ l → (priority x ≤ priority r)%Z.
Proof.
  rewrite heap_inv_alt. intros Hh Hr x [i Hi]%list_elem_of_lookup.
  revert x Hi. induction (lt_wf i) as [i _ IH]. intros x Hi.
  destruct (decide (i = 0)) as [->|Hne]; [simplify_eq; lia|].
  pose proof (parent_is_child i Hne) as Hc.
  pose proof (parent_lt i Hne) as Hlt.
  destruct (lookup_lt_is_Some_2 l (_parent_index i)) as [y Hy].
  { apply lookup_lt_Some in Hi. lia. }
  pose proof (IH _ Hlt _ Hy). pose proof (Hh _ _ Hc _ _ Hy Hi). lia.
Qed.

(** ** enqueue *)

Lemma enqueue_run c x q :
  ∃ q', enqueue c x q = Ok tt q' ∧
        sift_up_R c (length (data q)) (pushed c x q) q'.
Proof.
  assert (∀ q0, data q0 = data q ++ [x] →
    ∃ q', (do n <- len_data; _sift_up c (n - 1)) q0 = Ok tt q' ∧
          sift_up_R c (length (data q)) q0 q') as Hup.
  { intros q0 Hd. unfold bind, len_data, _sift_up.
    rewrite Hd, length_app. cbn [length].
    replace (length (data q) + 1 - 1) with (length (data q)) by lia.
    apply sift_up_run; [lia|]. rewrite Hd, length_app. simpl. lia. }
  destruct c.
  - apply (Hup (pushed PatientHeapQueue x q)). done.
  - apply (Hup (pushed EditablePatientHeapQueue x q)). done.
Qed.

Lemma pushed_heap_pre c x q :
  heap_inv (data q) →
  (∀ p ch, is_child p ch → ch ≠ length (data q) → p ≠ length (data q) →
     le_at (data (pushed c x q)) p ch) ∧
  (∀ g ch, is_child g (length (data q)) → is_child (length (data q)) ch →
     le_at (data (pushed c x q)) g ch).
Proof.
  rewrite heap_inv_alt. intros Hh. cbn [data pushed]. split.
  - intros p ch Hch Hne1 Hne2 a b Ha Hb.
    pose proof (lookup_lt_Some _ _ _ Ha) as La.
    pose proof (lookup_lt_Some _ _ _ Hb) as Lb.
    rewrite length_app in La, Lb. simpl in La, Lb.
    rewrite lookup_app_l in Ha, Hb by lia. by eapply Hh.
  - intros g ch _ Hch a b _ Hb. apply lookup_lt_Some in Hb.
    rewrite length_app in Hb. simpl in Hb. destruct Hch; lia.
Qed.

Lemma enqueue_heap c x q q' :
  sift_up_R c (length (data q)) (pushed c x q) q' →
  heap_inv (data q) → heap_inv (data q').
Proof.
  intros HR Hh. destruct (pushed_heap_pre c x q Hh) as [W1 W2].
  destruct (sift_up_R_heap _ _ _ _ HR W1 W2) as [[-> Hpar]|]; [|done].
  rewrite heap_inv_alt in Hh. rewrite heap_inv_alt.
  intros p ch Hch a b Ha Hb.
  destruct (is_child_parent _ _ Hch) as (Hp & Hn0 & Hlt).
  destruct (decide (ch = length (data q))) as [->|Hne].
  - subst p. by eapply Hpar.
  - pose proof (lookup_lt_Some _ _ _ Hb) as Lb. cbn [data pushed] in Lb.
    rewrite length_app in Lb. simpl in Lb.
    apply W1 in Hch; [by eapply Hch|done|lia].
Qed.

Lemma pushed_pos_fwd x q :
  pos_fwd q → (∀ y, y ∈ data q → name y ≠ name x) →
  pos_fwd (pushed EditablePatientHeapQueue x q).
Proof.
  intros Hf Hfresh i y. cbn [data indices pushed]. intros Hy.
  apply lookup_app_Some in Hy as [Hy|[Hle Hy]].
  - rewrite lookup_insert_ne; [by apply Hf|].
    intros Heq. eapply Hfresh; [|done]. by eapply list_elem_of_lookup_2.
  - apply list_lookup_singleton_Some in Hy as [Hi ->].
    replace i with (length (data q)) by lia. by rewrite lookup_insert_eq.
Qed.

Lemma pushed_pos_bwd x q :
  pos_bwd q → pos_bwd (pushed EditablePatientHeapQueue x q).
Proof.
  intros Hb k i. cbn [data indices pushed].
  destruct (decide (k = name x)) as [->|Hne].
  - rewrite lookup_insert_eq. intros [= <-].
    by rewrite list_lookup_middle.
  - rewrite lookup_insert_ne by done. intros Hk.
    pose proof (Hb _ _ Hk) as Hd.
    destruct (data q !! i) as [y|] eqn:Hy; [|done].
    by rewrite (lookup_app_l_Some _ _ _ _ Hy).
Qed.

Lemma pos_fwd_inj q i j x y :
  pos_fwd q → data q !! i = Some x → data q !! j = Some y →
  name x = name y → i = j.
Proof. intros Hf Hi Hj Hn. apply Hf in Hi, Hj. congruence. Qed.

Lemma pos_inv_fresh q x :
  pos_inv q → indices q !! name x = None → ∀ y, y ∈ data q → name y ≠ name x.
Proof.
  intros [Hf _] Hnone y [i Hi]%list_elem_of_lookup Heq.
  apply Hf in Hi. congruence.
Qed.

(** ** dequeue *)

Lemma base_dequeue_run c q r rest :
  data q = r :: rest →
  ∃ q', base_dequeue c q = Ok r q' ∧
        (rest = [] ∧ q' = set_data [] q
         ∨ ∃ body l, rest = body ++ [l] ∧
                     sift_down_R c 0 (set_data (l :: body) q) q').
Proof.
  intros Hd. unfold base_dequeue.
  unfold bind at 1. unfold get_item at 1. rewrite Hd. cbn [lookup list_lookup].
  unfold bind at 1. unfold len_data at 1. rewrite Hd. cbn [length].
  destruct rest as [|a t _] using rev_ind.
  - cbn [length]. rewrite decide_False by lia.
    unfold bind, pop, ret. rewrite Hd. cbn [last removelast].
    eexists. split; [done|]. by left.
  - rewrite decide_True by (rewrite length_app; simpl; lia).
    rewrite app_comm_cons in Hd.
    unfold bind at 1. unfold bind at 1. unfold pop at 1. rewrite Hd.
    rewrite (last_snoc a (r :: t)).
    unfold bind at 1. unfold set_item at 1. cbn [data set_data].
    rewrite (removelast_last (r :: t) a). cbn [length].
    rewrite decide_True by lia. cbn [data set_data insert list_insert].
    set (q1 := set_data (a :: t) _).
    destruct (sift_down_run c (S (length (data q1))) 0 q1)
      as (q' & Hrun & HR); [lia|simpl; lia|].
    unfold _sift_down. rewrite Hrun. unfold ret.
    exists q'. split; [done|]. right. exists t, a. split; [done|].
    by destruct q.
Qed.

Lemma popped_heap_pre r body l :
  heap_inv (r :: body ++ [l]) →
  (∀ p ch, is_child p ch → 0 ≤ p → p ≠ 0 → le_at (l :: body) p ch) ∧
  (∀ g ch, is_child g 0 → is_child 0 ch → 0 ≤ g → le_at (l :: body) g ch).
Proof.
  rewrite heap_inv_alt. intros Hh. split.
  - intros p ch Hch _ Hp a b Ha Hb.
    destruct (is_child_parent _ _ Hch) as (_ & _ & Hlt).
    destruct p as [|p]; [done|]. destruct ch as [|ch]; [lia|].
    cbn in Ha, Hb. eapply (Hh (S p) (S ch) Hch); cbn.
    + by apply lookup_app_l_Some.
    + by apply lookup_app_l_Some.
  - intros g ch Hg. apply is_child_parent in Hg. lia.
Qed.

Lemma base_dequeue_spec c q r rest :
  data q = r :: rest →
  ∃ q', base_dequeue c q = Ok r q' ∧ data q' ≡ₚ rest ∧
        (heap_inv (data q) → heap_inv (data q')) ∧ counted q q' ∧
        (∀ I, stable c I → (∀ l, I (set_data l q)) → I q').
Proof.
  intros Hd. destruct (base_dequeue_run c q r rest Hd) as (q' & Hrun & Hq').
  exists q'. split; [done|].
  destruct Hq' as [[-> ->]|(body & l & -> & HR)].
  { split_and!; [done| |by exists []|by auto].
    intros _. rewrite heap_inv_alt. intros ? ? ? ? ? ?. done. }
  split_and!.
  - eapply (sift_down_R_stable c (fun q => data q ≡ₚ body ++ [l])); eauto.
    + apply stable_perm.
    + cbn. by rewrite Permutation_app_comm.
  - rewrite Hd. intros Hh. destruct (popped_heap_pre _ _ _ Hh) as [D1 D2].
    rewrite heap_inv_alt. intros p ch Hch.
    eapply (sift_down_R_heap c 0 0); eauto with lia.
  - eapply (sift_down_R_stable c (counted q)); eauto.
    + apply stable_counted.
    + by exists [].
  - intros I HI Hset. eapply sift_down_R_stable; eauto.
Qed.

Lemma pos_inv_size q : pos_inv q → size (indices q) = length (data q).
Proof.
  intros [Hf Hb].
  rewrite <-length_map_to_list.
  rewrite <-(length_imap (fun i x => (name x, i)) (data q)).
  apply Permutation_length, NoDup_Permutation.
  - apply NoDup_map_to_list.
  - apply NoDup_alt. intros i j [k v]. rewrite !list_lookup_imap.
    intros Hi Hj.
    destruct (data q !! i) eqn:?, (data q !! j) eqn:?; simplify_eq/=. done.
  - intros [k v]. rewrite elem_of_map_to_list, elem_of_lookup_imap. split.
    + intros Hk. pose proof (Hb _ _ Hk) as Hd.
      destruct (data q !! v) as [x|] eqn:Hx; simplify_eq/=. eauto.
    + intros (i & x & [= -> ->] & Hx). by apply Hf.
Qed.

Lemma dequeue_editable_book q r rest l :
  data q = r :: rest → last (data q) = Some l → pos_fwd q →
  dequeue EditablePatientHeapQueue q =
    (do d <- base_dequeue EditablePatientHeapQueue; ret d) (unindexed r l q).
Proof.
  intros Hd Hl Hf. unfold dequeue.
  unfold bind at 1. unfold len_indices at 1.
  assert (indices q !! name r = Some 0) as Hr.
  { apply Hf. by rewrite Hd. }
  unfold unindexed. unfold bind at 1.
  destruct (decide (size (indices q) ≠ 1)) as [Hn|Hn].
  - unfold bind at 1. unfold get_last at 1. rewrite Hl.
    unfold bind at 1. unfold set_index at 1.
    unfold bind at 1. unfold get_item at 1. cbn [data set_indices].
    rewrite Hd. cbn [lookup list_lookup].
    unfold del_index. cbn [indices set_indices].
    destruct (decide (name l = name r)) as [->|Hne].
    + rewrite lookup_insert_eq. done.
    + rewrite lookup_insert_ne by done. rewrite Hr. done.
  - unfold bind at 1. unfold get_item at 1. rewrite Hd.
    cbn [lookup list_lookup]. unfold del_index. rewrite Hr. done.
Qed.

Lemma unindexed_pos_inv_last q r :
  pos_inv q → data q = [r] → pos_inv (set_data [] (unindexed r r q)).
Proof.
  intros Hp Hd. pose proof (pos_inv_size q Hp) as Hs. destruct Hp as [Hf Hb].
  rewrite Hd in Hs. cbn in Hs. split.
  - intros i x. cbn. done.
  - intros k i. cbn [indices data set_data set_indices unindexed].
    rewrite decide_False by lia.
    intros [Hne Hk]%lookup_delete_Some. apply Hb in Hk. rewrite Hd in Hk.
    destruct i; simplify_eq/=.
Qed.

Lemma unindexed_pos_inv q r body l :
  pos_inv q → data q = r :: body ++ [l] →
  pos_inv (set_data (l :: body) (unindexed r l q)).
Proof.
  intros Hp Hd. pose proof (pos_inv_size q Hp) as Hs. destruct Hp as [Hf Hb].
  rewrite Hd in Hs. cbn in Hs. rewrite length_app in Hs. cbn in Hs.
  assert (data q !! 0 = Some r) as H0 by by rewrite Hd.
  assert (data q !! S (length body) = Some l) as Hlast.
  { rewrite Hd. by apply (list_lookup_middle (r :: body) [] l). }
  assert (∀ i x, body !! i = Some x → data q !! S i = Some x) as Hbody.
  { intros i x Hi. rewrite Hd. cbn. by apply lookup_app_l_Some. }
  assert (name l ≠ name r) as Hlr.
  { intros Heq. by pose proof (pos_fwd_inj _ _ _ _ _ Hf Hlast H0 Heq). }
  split.
  - intros i x. cbn [indices data set_data set_indices unindexed].
    rewrite decide_True by lia.
    destruct i as [|i]; cbn.
    + intros [= ->]. rewrite lookup_delete_ne by done.
      by rewrite lookup_insert_eq.
    + intros Hi. pose proof (lookup_lt_Some _ _ _ Hi) as Li.
      apply Hbody in Hi.
      rewrite lookup_delete_ne, lookup_insert_ne; [by apply Hf| |].
      * intros Heq. pose proof (pos_fwd_inj _ _ _ _ _ Hf Hlast Hi Heq). lia.
      * intros Heq. by pose proof (pos_fwd_inj _ _ _ _ _ Hf H0 Hi Heq).
  - intros k i. cbn [indices data set_data set_indices unindexed].
    rewrite decide_True by lia.
    intros [Hne Hk]%lookup_delete_Some.
    destruct (decide (k = name l)) as [->|Hkl].
    + rewrite lookup_insert_eq in Hk. by simplify_eq.
    + rewrite lookup_insert_ne in Hk by done.
      apply Hb in Hk. rewrite Hd in Hk.
      destruct i as [|i]; [simplify_eq/=|].
      change (name <$> (body ++ [l]) !! i = Some k) in Hk.
      change (name <$> body !! i = Some k).
      rewrite lookup_app in Hk.
      destruct (body !! i) as [y|] eqn:Hy; [done|].
      destruct (i - length body); simplify_eq/=.
Qed.

Lemma dequeue_spec c q r rest :
  wf c q → data q = r :: rest →
  ∃ q', dequeue c q = Ok r q' ∧ data q' ≡ₚ rest ∧
        (heap_inv (data q) → heap_inv (data q')) ∧ wf c q' ∧ counted q q'.
Proof.
  intros Hwf Hd. destruct c.
  { destruct (base_dequeue_spec PatientHeapQueue q r rest Hd)
      as (q' & Hrun & Hperm & Hheap & Hcnt & _).
    exists q'. by split_and!. }
  cbn in Hwf.
  destruct (last (data q)) as [l|] eqn:Hl.
  2:{ apply last_None in Hl. congruence. }
  rewrite (dequeue_editable_book q r rest l Hd Hl (proj1 Hwf)).
  set (q0 := unindexed r l q).
  assert (data q0 = r :: rest) as Hd0 by done.
  destruct (base_dequeue_run EditablePatientHeapQueue q0 r rest Hd0)
    as (q' & Hrun & Hq').
  destruct (base_dequeue_spec EditablePatientHeapQueue q0 r rest Hd0)
    as (q'' & Hrun' & Hperm & Hheap & Hcnt & _).
  assert (q'' = q') as -> by congruence.
  exists q'. unfold bind. rewrite Hrun. split_and!; [done..| |].
  - destruct Hq' as [[-> ->]|(body & l' & -> & HR)].
    + rewrite Hd in Hl. simplify_eq/=. by apply unindexed_pos_inv_last.
    + rewrite Hd in Hl. rewrite app_comm_cons, last_snoc in Hl.
      simplify_eq. eapply (sift_down_R_stable _ pos_inv);
        [apply stable_pos_inv|done|]. by apply unindexed_pos_inv.
  - destruct Hcnt as (e & L & C). by exists e.
Qed.

Lemma dequeue_empty c q : data q = [] → dequeue c q = Raise IndexError q.
Proof.
  intros Hd. destruct c; cbn [dequeue].
  - unfold base_dequeue, bind, get_item. by rewrite Hd.
  - unfold bind at 1. unfold len_indices at 1. unfold bind at 1.
    destruct (decide _).
    + unfold bind, get_last. by rewrite Hd.
    + unfold bind, get_item. by rewrite Hd.
Qed.

Lemma dequeue_n_perm c n q out q' :
  wf c q → dequeue_n c n q = Ok out q' →
  data q ≡ₚ out ++ data q' ∧ wf c q' ∧ counted q q' ∧
  (heap_inv (data q) → heap_inv (data q')).
Proof.
  revert q out. induction n as [|n IH]; intros q out Hwf.
  { intros [= <- <-]. split_and!; [done..|apply counted_refl|done]. }
  cbn [dequeue_n]. unfold bind at 1.
  destruct (data q) as [|r rest] eqn:Hd.
  { by rewrite dequeue_empty. }
  destruct (dequeue_spec c q r rest Hwf Hd)
    as (q1 & -> & Hperm & Hheap & Hwf1 & Hcnt).
  unfold bind at 1.
  destruct (dequeue_n c n q1) as [out1 q2|] eqn:Hrun; [|done].
  unfold ret. intros [= <- <-]. rewrite Hd in Hheap.
  destruct (IH q1 out1 Hwf1 Hrun) as (Hperm2 & Hwf2 & Hcnt2 & Hheap2).
  split_and!; [|done|by eapply counted_trans|by auto].
  cbn. by rewrite <-Hperm2, Hperm.
Qed.

Lemma dequeue_n_spec c n q :
  wf c q → heap_inv (data q) → NoDup (priority <$> data q) →
  n ≤ length (data q) →
  ∃ out q', dequeue_n c n q = Ok out q' ∧ length out = n ∧ descending out ∧
            (∀ x y, x ∈ out → y ∈ data q' → (priority x > priority y)%Z).
Proof.
  revert q. induction n as [|n IH]; intros q Hwf Hh Hnd Hn.
  { exists [], q. split_and!; [done..|constructor|]. by intros ?? ?%elem_of_nil. }
  destruct (data q) as [|r rest] eqn:Hd; [simpl in Hn; lia|].
  destruct (dequeue_spec c q r rest Hwf Hd)
    as (q1 & Hrun & Hperm & Hheap & Hwf1 & Hcnt).
  rewrite Hd in Hheap. specialize (Hheap Hh).
  assert (∀ y, y ∈ rest → (priority r > priority y)%Z) as Hmax.
  { intros y Hy. pose proof (heap_inv_root_max _ r Hh eq_refl y) as Hle.
    rewrite fmap_cons in Hnd. apply NoDup_cons in Hnd as [Hnotin _].
    assert (priority y ≠ priority r).
    { intros Heq. apply Hnotin. rewrite <-Heq. by apply list_elem_of_fmap_2. }
    assert (priority y ≤ priority r)%Z by (apply Hle; by right). lia. }
  destruct (IH q1) as (out1 & q2 & Hrun1 & Hlen & Hdesc & Hgt); [done..| | |].
  { rewrite Hperm. rewrite fmap_cons in Hnd. by apply NoDup_cons in Hnd as [_ ?]. }
  { rewrite Hperm. simpl in Hn. lia. }
  destruct (dequeue_n_perm c n q1 out1 q2 Hwf1 Hrun1) as (Hperm1 & _).
  exists (r :: out1), q2. cbn [dequeue_n]. unfold bind. rewrite Hrun, Hrun1.
  split_and!; [done|by simpl; f_equal| |].
  - constructor; [done|]. apply Forall_forall. intros y Hy. apply Hmax.
    rewrite <-Hperm, Hperm1. apply elem_of_app. by left.
  - intros x y [->|Hx]%elem_of_cons Hy; [|by apply Hgt].
    apply Hmax. rewrite <-Hperm, Hperm1. apply elem_of_app. by right.
Qed.

(** ** remove *)

Lemma remove_last key q ri body l :
  indices q !! key = Some ri → data q = body ++ [l] → name l = key →
  remove key q =
    Ok tt (mkQueue body (comparisons q) (delete key (indices q)) (cmp_log q)).
Proof.
  intros Hk Hd Hl. unfold remove.
  unfold bind at 1. unfold get_index at 1. rewrite Hk.
  unfold bind at 1. unfold del_index at 1. rewrite Hk.
  unfold bind at 1. unfold get_last at 1. cbn [data set_indices].
  rewrite Hd, last_snoc.
  unfold bind at 1. unfold get_last at 1. cbn [data set_indices].
  rewrite Hd, last_snoc. rewrite decide_False by (intros ?; done).
  unfold bind, pop, ret. cbn [data set_indices set_data].
  rewrite Hd, last_snoc, removelast_last. done.
Qed.

Lemma remove_run key q ri body l :
  indices q !! key = Some ri → data q = body ++ [l] → name l ≠ key →
  ri < length body →
  ∃ q3 q', remove key q = Ok tt q' ∧
    sift_up_R EditablePatientHeapQueue ri (refilled key ri l body q) q3 ∧
    sift_down_R EditablePatientHeapQueue ri q3 q'.
Proof.
  intros Hk Hd Hl Hri. unfold remove.
  unfold bind at 1. unfold get_index at 1. rewrite Hk.
  unfold bind at 1. unfold del_index at 1. rewrite Hk.
  unfold bind at 1. unfold get_last at 1. cbn [data set_indices].
  rewrite Hd, last_snoc.
  unfold bind at 1. unfold get_last at 1. cbn [data set_indices].
  rewrite Hd, last_snoc. rewrite decide_True by done.
  unfold bind at 1. unfold set_item at 1. cbn [data set_indices].
  rewrite Hd, length_app. rewrite decide_True by lia.
  rewrite insert_app_l by done.
  unfold bind at 1. unfold pop at 1. cbn [data set_indices set_data].
  rewrite last_snoc, removelast_last.
  unfold bind at 1. unfold set_index at 1.
  cbn [data set_indices set_data indices comparisons cmp_log].
  change (set_indices _ (set_data _ (set_data _ (set_indices _ q))))
    with (refilled key ri l body q).
  set (q2 := refilled key ri l body q).
  assert (length (data q2) = length body) as Hlen2.
  { unfold q2. cbn. by rewrite length_insert. }
  destruct (sift_up_run EditablePatientHeapQueue (S ri) ri q2)
    as (q3 & Hrun3 & HR3); [lia|lia|].
  unfold bind at 1. unfold _sift_up. rewrite Hrun3.
  assert (length (data q3) = length body) as Hlen3.
  { eapply (sift_up_R_stable _ (fun q => length (data q) = length body));
      [apply stable_length|done..]. }
  destruct (sift_down_run EditablePatientHeapQueue
              (S (length (data q3))) ri q3)
    as (q4 & Hrun4 & HR4); [lia|lia|].
  unfold _sift_down. rewrite Hrun4. by exists q3, q4.
Qed.

Lemma refilled_pos_inv key q ri body l :
  pos_inv q → indices q !! key = Some ri → data q = body ++ [l] →
  name l ≠ key → pos_inv (refilled key ri l body q).
Proof.
  intros [Hf Hb] Hk Hd Hl.
  assert (data q !! length body = Some l) as Hlast.
  { rewrite Hd. by apply list_lookup_middle. }
  assert (∀ i x, body !! i = Some x → data q !! i = Some x) as Hbody.
  { intros i x Hi. rewrite Hd. by apply lookup_app_l_Some. }
  pose proof (Hb _ _ Hk) as Hz.
  destruct (data q !! ri) as [z|] eqn:Hzri; [|done]. simplify_eq/=.
  assert (ri < length body) as Hri.
  { pose proof (lookup_lt_Some _ _ _ Hzri) as Lz.
    rewrite Hd, length_app in Lz. simpl in Lz.
    destruct (decide (ri = length body)) as [->|]; [|lia]. simplify_eq. }
  split.
  - intros i x. cbn [data indices refilled].
    destruct (decide (i = ri)) as [->|Hne].
    + rewrite list_lookup_insert_eq by done. intros [= <-].
      by rewrite lookup_insert_eq.
    + rewrite list_lookup_insert_ne by done. intros Hi.
      pose proof (lookup_lt_Some _ _ _ Hi) as Li. apply Hbody in Hi.
      rewrite lookup_insert_ne, lookup_delete_ne; [by apply Hf| |].
      * intros Heq. by pose proof (pos_fwd_inj _ _ _ _ _ Hf Hzri Hi Heq).
      * intros Heq. pose proof (pos_fwd_inj _ _ _ _ _ Hf Hlast Hi Heq). lia.
  - intros k v. cbn [data indices refilled].
    destruct (decide (k = name l)) as [->|Hkl].
    + rewrite lookup_insert_eq. intros [= <-].
      by rewrite list_lookup_insert_eq.
    + rewrite lookup_insert_ne by done.
      intros [Hne Hv]%lookup_delete_Some. apply Hb in Hv.
      destruct (decide (v = ri)) as [->|Hvr].
      { rewrite Hzri in Hv. simplify_eq/=. }
      rewrite list_lookup_insert_ne by done.
      rewrite Hd, lookup_app in Hv.
      destruct (body !! v) as [y|] eqn:Hy; [done|].
      destruct (v - length body) as [|[|]]; simplify_eq/=.
Qed.

Lemma refilled_heap key q ri body l q3 q' :
  data q = body ++ [l] → ri < length body → heap_inv (data q) →
  sift_up_R EditablePatientHeapQueue ri (refilled key ri l body q) q3 →
  sift_down_R EditablePatientHeapQueue ri q3 q' →
  heap_inv (data q').
Proof.
  intros Hd Hri Hh HR3 HR4. rewrite heap_inv_alt in Hh.
  destruct (lookup_lt_is_Some_2 body ri Hri) as [z Hz].
  assert (∀ i x, body !! i = Some x → data q !! i = Some x) as Hbody.
  { intros i x Hi. rewrite Hd. by apply lookup_app_l_Some. }
  set (q2 := refilled key ri l body q) in *.
  assert (∀ k, k ≠ ri → data q2 !! k = body !! k) as Hq2.
  { intros k Hk. cbn. by rewrite list_lookup_insert_ne. }
  assert (W1 : ∀ p ch, is_child p ch → ch ≠ ri → p ≠ ri →
                le_at (data q2) p ch).
  { intros p ch Hch H1 H2 x y. rewrite !Hq2 by done.
    intros Hx%Hbody Hy%Hbody. by eapply Hh. }
  assert (W2 : ∀ g ch, is_child g ri → is_child ri ch →
                le_at (data q2) g ch).
  { intros g ch Hg Hch x y.
    destruct (is_child_parent _ _ Hg) as (_ & _ & ?).
    destruct (is_child_parent _ _ Hch) as (_ & _ & ?).
    rewrite !Hq2 by lia. intros Hx%Hbody Hy%Hbody.
    pose proof (Hh _ _ Hg _ _ Hx (Hbody _ _ Hz)).
    pose proof (Hh _ _ Hch _ _ (Hbody _ _ Hz) Hy). lia. }
  rewrite heap_inv_alt. intros p ch Hch.
  eapply (sift_down_R_heap _ 0 ri q3 q' HR4); [lia| | |done|lia].
  - intros p' ch' Hch' _ Hne.
    destruct (sift_up_R_heap _ _ _ _ HR3 W1 W2) as [[-> Hpar]|Hh3].
    + destruct (decide (ch' = ri)) as [->|]; [|by apply W1].
      destruct (is_child_parent _ _ Hch') as (<- & ? & _). by apply Hpar.
    + rewrite heap_inv_alt in Hh3. by apply Hh3.
  - intros g ch' Hg Hch' _.
    destruct (sift_up_R_heap _ _ _ _ HR3 W1 W2) as [[-> Hpar]|Hh3].
    + by apply W2.
    + intros x y Hx Hy. rewrite heap_inv_alt in Hh3.
      destruct (is_child_parent _ _ Hch') as (_ & _ & ?).
      destruct (lookup_lt_is_Some_2 (data q3) ri) as [w Hw].
      { apply lookup_lt_Some in Hy. lia. }
      pose proof (Hh3 _ _ Hg _ _ Hx Hw).
      pose proof (Hh3 _ _ Hch' _ _ Hw Hy). lia.
Qed.

Lemma heap_inv_prefix body l : heap_inv (body ++ l) → heap_inv body.
Proof.
  rewrite !heap_inv_alt. intros Hh p ch Hch x y Hx Hy.
  eapply Hh; eauto using lookup_app_l_Some.
Qed.

Lemma remove_spec key q ri :
  pos_inv q → indices q !! key = Some ri →
  ∃ z q', remove key q = Ok tt q' ∧ data q !! ri = Some z ∧ name z = key ∧
          data q ≡ₚ z :: data q' ∧ pos_inv q' ∧
          (heap_inv (data q) → heap_inv (data q')) ∧ counted q q'.
Proof.
  intros Hp Hk. pose proof Hp as [Hf Hb].
  pose proof (Hb _ _ Hk) as Hz.
  destruct (data q !! ri) as [z|] eqn:Hzri; [|done]. simplify_eq/=.
  destruct (data q) as [|l body _] eqn:Hd using rev_ind; [done|].
  assert (data q !! length body = Some l) as Hlast.
  { rewrite Hd. by apply list_lookup_middle. }
  assert (∀ i x, body !! i = Some x → data q !! i = Some x) as Hbody.
  { intros i x Hi. rewrite Hd. by apply lookup_app_l_Some. }
  rewrite <-Hd in Hzri.
  destruct (decide (name l = name z)) as [Heq|Hne].
  - pose proof (pos_fwd_inj _ _ _ _ _ Hf Hlast Hzri Heq) as <-.
    assert (l = z) as -> by congruence.
    rewrite (remove_last _ q _ body z Hk Hd eq_refl).
    eexists z, _. split_and!; [done..| | | |by exists []]; cbn [data].
    + by rewrite Permutation_app_comm.
    + split.
      * intros i x. cbn [data indices]. intros Hi.
        pose proof (lookup_lt_Some _ _ _ Hi) as Li. apply Hbody in Hi.
        rewrite lookup_delete_ne; [by apply Hf|].
        intros Heq'. pose proof (pos_fwd_inj _ _ _ _ _ Hf Hlast Hi Heq'). lia.
      * intros k v. cbn [data indices].
        intros [Hne Hv]%lookup_delete_Some. apply Hb in Hv.
        rewrite Hd, lookup_app in Hv.
        destruct (body !! v) as [y|] eqn:Hy; [done|].
        destruct (v - length body) as [|[|]]; simplify_eq/=.
    + apply heap_inv_prefix.
  - assert (ri < length body) as Hri.
    { pose proof (lookup_lt_Some _ _ _ Hzri) as Lz.
      rewrite Hd, length_app in Lz. simpl in Lz.
      destruct (decide (ri = length body)) as [->|]; [|lia]. congruence. }
    destruct (remove_run _ q ri body l Hk Hd Hne Hri)
      as (q3 & q' & Hrun & HR3 & HR4).
    set (q2 := refilled (name z) ri l body q) in *.
    exists z, q'. split_and!; [done..| | | |].
    + assert (data q' ≡ₚ data q2) as ->.
      { eapply (sift_down_R_stable _ (fun q => data q ≡ₚ data q2));
          [apply stable_perm|done|].
        eapply (sift_up_R_stable _ (fun q => data q ≡ₚ data q2));
          [apply stable_perm|done..]. }
      cbn [data q2 refilled]. rewrite Permutation_app_comm. cbn.
      apply insert_Permutation. rewrite Hd in Hzri.
      by rewrite lookup_app_l in Hzri.
    + eapply sift_down_R_stable; [apply stable_pos_inv|done|].
      eapply sift_up_R_stable; [apply stable_pos_inv|done|].
      by apply refilled_pos_inv.
    + intros Hh. rewrite <-Hd in Hh. by eapply refilled_heap.
    + eapply sift_down_R_stable; [apply stable_counted|done|].
      eapply sift_up_R_stable; [apply stable_counted|done|].
      by exists [].
Qed.

Lemma remove_absent key q :
  indices q !! key = None → remove key q = Raise KeyError q.
Proof. intros Hk. unfold remove, bind, get_index. by rewrite Hk. Qed.

(** ** Construction *)

Lemma pos_bwd_or_False q : pos_bwd_or (fun _ => False) q ↔ pos_bwd q.
Proof.
  unfold pos_bwd_or, pos_bwd. split; intros H k i Hk.
  - by destruct (H k i Hk).
  - left. by apply H.
Qed.

Lemma stable_pos_bwd_or P : stable EditablePatientHeapQueue (pos_bwd_or P).
Proof.
  split; [done|]. intros i j xi xj q Hne Hi Hj Hb k v.
  rewrite swapped_lookup by done. cbn [indices swapped].
  destruct (decide (k = name xi)) as [->|Hki].
  { rewrite lookup_insert_eq. intros [= <-]. left. by rewrite decide_True. }
  rewrite lookup_insert_ne by done.
  destruct (decide (k = name xj)) as [->|Hkj].
  { rewrite lookup_insert_eq. intros [= <-]. left.
    rewrite decide_False by done. by rewrite decide_True. }
  rewrite lookup_insert_ne by done. intros Hk.
  destruct (Hb _ _ Hk) as [Bk|?]; [left|by right].
  destruct (decide (v = j)) as [->|?].
  { rewrite Hj in Bk. simplify_eq/=. }
  destruct (decide (v = i)) as [->|?].
  { rewrite Hi in Bk. simplify_eq/=. }
  done.
Qed.

Lemma for_each_append l q :
  for_each append l q = Ok tt (set_data (data q ++ l) q).
Proof.
  revert q. induction l as [|x l IH]; intros q; cbn [for_each].
  - unfold ret, set_data. rewrite app_nil_r. by destruct q.
  - unfold bind, append. rewrite IH. cbn [data set_data].
    unfold set_data. cbn. by rewrite <-app_assoc.
Qed.

Lemma for_each_seed items q :
  for_each (fun ip => set_index (name ip.2) ip.1) items q =
    Ok tt (set_indices (seed (indices q) items) q).
Proof.
  revert q. induction items as [|ip items IH]; intros q; cbn [for_each].
  - unfold ret, set_indices. by destruct q.
  - unfold bind, set_index. rewrite IH. done.
Qed.

Lemma seed_keys m items k v :
  seed m items !! k = Some v →
  m !! k = Some v ∨ ∃ ip, ip ∈ items ∧ name ip.2 = k.
Proof.
  revert m. induction items as [|ip items IH]; intros m; cbn; [by left|].
  intros [Hm|(ip' & Hin & Hn)]%IH.
  - destruct (decide (name ip.2 = k)) as [<-|Hne].
    + right. exists ip. split; [by left|done].
    + rewrite lookup_insert_ne in Hm by done. by left.
  - right. exists ip'. split; [by right|done].
Qed.

Lemma seed_pos_inv l q :
  data q = l → indices q = seed ∅ (imap pair l) → NoDup (name <$> l) →
  pos_inv q.
Proof.
  revert q. induction l as [|x l IH] using rev_ind; intros q Hd Hi Hnd.
  { split.
    - intros i y. by rewrite Hd.
    - intros k i. rewrite Hi. cbn. by rewrite lookup_empty. }
  rewrite fmap_app in Hnd. apply NoDup_app in Hnd as (Hnd & Hfresh & _).
  specialize (IH (mkQueue l (comparisons q) (seed ∅ (imap pair l)) (cmp_log q))
                 eq_refl eq_refl Hnd).
  rewrite imap_app in Hi. unfold seed in Hi. rewrite foldl_app in Hi.
  cbn in Hi. rewrite Nat.add_0_r in Hi.
  assert (q = pushed EditablePatientHeapQueue x
               (mkQueue l (comparisons q) (seed ∅ (imap pair l)) (cmp_log q)))
    as ->.
  { destruct q; cbn in *. unfold pushed. cbn. by f_equal. }
  destruct IH as [Hf Hb]. split.
  - apply pushed_pos_fwd; [done|]. cbn [data]. intros y Hy Heq.
    eapply (Hfresh (name y)); [by apply list_elem_of_fmap_2|].
    rewrite Heq. cbn. by left.
  - by apply pushed_pos_bwd.
Qed.

Lemma heapify_run c l q :
  ∃ q', _heapify c l q = Ok tt q' ∧ data q' ≡ₚ data q ++ l ∧
        (heap_inv (data q) → heap_inv (data q')) ∧ counted q q'.
Proof.
  revert q. induction l as [|x l IH]; intros q.
  { exists q. rewrite app_nil_r. split_and!; [done..|apply counted_refl]. }
  destruct (enqueue_run c x q) as (q1 & Hrun1 & HR1).
  destruct (IH q1) as (q' & Hrun & Hperm & Hheap & Hcnt).
  exists q'. unfold _heapify in *. cbn [for_each]. unfold bind.
  rewrite Hrun1. split_and!; [done| | |].
  - rewrite Hperm.
    rewrite (sift_up_R_stable c (fun q0 => data q0 ≡ₚ data q ++ [x]) _ _ _
               (stable_perm _ _) HR1 (reflexivity _)).
    by rewrite <-app_assoc.
  - intros Hh. apply Hheap. by eapply enqueue_heap.
  - eapply counted_trans; [|done].
    eapply (sift_up_R_stable c (counted q));
      [apply stable_counted|done|by exists []].
Qed.

Lemma heapify_editable l q q' :
  _heapify EditablePatientHeapQueue l q = Ok tt q' →
  pos_fwd q → pos_bwd_or (fun k => k ∈ name <$> l) q →
  NoDup (name <$> (data q ++ l)) → pos_inv q'.
Proof.
  revert q. induction l as [|x l IH]; intros q.
  { intros [= ->] Hf Hb _. split; [done|]. apply pos_bwd_or_False.
    intros k i Hk. destruct (Hb k i Hk) as [?|[]%elem_of_nil]. by left. }
  unfold _heapify. cbn [for_each]. unfold bind.
  destruct (enqueue_run EditablePatientHeapQueue x q) as (q1 & -> & HR1).
  intros Hrun Hf Hb Hnd.
  assert (data q1 ≡ₚ data q ++ [x]) as Hperm.
  { by eapply (sift_up_R_stable _ (fun q0 => data q0 ≡ₚ data q ++ [x]));
      [apply stable_perm|done|]. }
  apply (IH q1 Hrun).
  - eapply sift_up_R_stable; [apply stable_pos_fwd|done|].
    apply pushed_pos_fwd; [done|]. intros y Hy Heq.
    rewrite fmap_app in Hnd. apply NoDup_app in Hnd as (_ & Hfresh & _).
    eapply (Hfresh (name y)); [by apply list_elem_of_fmap_2|].
    rewrite Heq. cbn. by left.
  - eapply sift_up_R_stable; [apply stable_pos_bwd_or|done|].
    intros k i. cbn [data indices pushed].
    destruct (decide (k = name x)) as [->|Hne].
    + rewrite lookup_insert_eq. intros [= <-]. left.
      by rewrite list_lookup_middle.
    + rewrite lookup_insert_ne by done. intros Hk.
      destruct (Hb _ _ Hk) as [Hd|Hin].
      * left. destruct (data q !! i) as [y|] eqn:Hy; [|done].
        by rewrite (lookup_app_l_Some _ _ _ _ Hy).
      * right. rewrite fmap_cons in Hin.
        by apply elem_of_cons in Hin as [?|?].
  - rewrite Hperm, <-app_assoc. done.
Qed.

Lemma range_down_S k : range_down (S k) = k :: range_down k.
Proof. unfold range_down. by rewrite seq_S, rev_unit. Qed.

Lemma sift_down_loop c k q :
  k ≤ length (data q) →
  (∀ p ch, is_child p ch → k ≤ p → le_at (data q) p ch) →
  ∃ q', for_each (_sift_down c) (range_down k) q = Ok tt q' ∧
        heap_inv (data q') ∧ (∀ I, stable c I → I q → I q').
Proof.
  revert q. induction k as [|k IH]; intros q Hk Hh.
  { exists q. split_and!; [done| |done].
    rewrite heap_inv_alt. intros p ch Hch. apply Hh; [done|lia]. }
  rewrite range_down_S. cbn [for_each]. unfold bind.
  destruct (sift_down_run c (S (length (data q))) k q)
    as (q1 & Hrun1 & HR1); [lia|lia|].
  unfold _sift_down at 1. rewrite Hrun1.
  destruct (IH q1) as (q' & Hrun & Hheap & Hst).
  - rewrite (sift_down_R_stable c (fun q0 => length (data q0) = length (data q))
               _ _ _ (stable_length _ _) HR1 eq_refl). lia.
  - intros p ch Hch Hp. eapply (sift_down_R_heap c k k); eauto.
    + intros p' ch' Hch' ? ?. apply Hh; [done|lia].
    + intros g ch' Hg _ ?. apply is_child_parent in Hg. lia.
  - exists q'. split_and!; [done..|].
    intros I HI Hq. apply Hst; [done|]. by eapply sift_down_R_stable.
Qed.

Lemma fast_heapify_run c l q :
  data q = [] →
  ∃ q', _fast_heapify c l q = Ok tt q' ∧ heap_inv (data q') ∧
        (∀ I, stable c I → I (set_data l q) → I q').
Proof.
  intros Hd. unfold _fast_heapify. unfold bind at 1.
  rewrite for_each_append, Hd. cbn [app].
  unfold bind, len_data. cbn [data set_data].
  apply (sift_down_loop c (length l) (set_data l q)); [done|].
  intros p ch Hch Hp x y Hx. apply lookup_lt_Some in Hx. cbn in Hx. lia.
Qed.

Lemma new_spec c l fast :
  ∃ q', new c (Some l) fast = Ok tt q' ∧ data q' ≡ₚ l ∧
        heap_inv (data q') ∧ counted blank q' ∧
        (NoDup (name <$> l) → wf c q').
Proof.
  assert (heap_inv []) as Hnil.
  { rewrite heap_inv_alt. by intros p ch _ x y ?. }
  set (m := match c with
            | PatientHeapQueue => ∅
            | EditablePatientHeapQueue => seed ∅ (imap pair l)
            end).
  set (q0 := mkQueue [] 0 m []).
  assert (new c (Some l) fast =
          (if fast then _fast_heapify c l else _heapify c l) q0) as ->.
  { unfold new. destruct c; [done|]. cbn [__init__].
    unfold bind at 1. unfold bind at 1. unfold enumerate, ret.
    unfold bind at 1. rewrite for_each_seed. done. }
  assert (NoDup (name <$> l) → wf c (set_data l q0)) as Hwf0.
  { intros Hnd. destruct c; [done|]. by apply (seed_pos_inv l). }
  destruct fast.
  - destruct (fast_heapify_run c l q0 eq_refl) as (q' & Hrun & Hheap & Hst).
    exists q'. split_and!; [done| |done| |].
    + by apply (Hst (fun q => data q ≡ₚ l) (stable_perm _ _)).
    + apply (Hst _ (stable_counted _ _)). by exists [].
    + intros Hnd. apply (Hst _ (stable_wf c)). auto.
  - destruct (heapify_run c l q0) as (q' & Hrun & Hperm & Hheap & Hcnt).
    exists q'. split_and!; [done|done|by auto| |].
    + destruct Hcnt as (e & ? & ?). by exists e.
    + intros Hnd. destruct c; [done|].
      apply (heapify_editable l q0 q' Hrun); [by intros i x|..|done].
      intros k i Hk. right.
      apply seed_keys in Hk as [Hk|(ip & Hin & <-)].
      { by rewrite lookup_empty in Hk. }
      apply elem_of_lookup_imap in Hin as (j & x & -> & Hx).
      cbn. apply list_elem_of_fmap_2. by eapply list_elem_of_lookup_2.
Qed.

(** ** The counter, on every run *)


Lemma keeps_same {A} (m : M A) :
  (∀ q, comparisons (final (m q)) = comparisons q ∧
        cmp_log (final (m q)) = cmp_log q) → keeps m.
Proof. intros H q. destruct (H q) as [H1 H2]. by exists []. Qed.

Lemma keeps_ret {A} (a : A) : keeps (ret a).
Proof. by apply keeps_same. Qed.
Lemma keeps_raise {A} e : keeps (raise (A := A) e).
Proof. by apply keeps_same. Qed.
Lemma keeps_len_data : keeps len_data.
Proof. by apply keeps_same. Qed.
Lemma keeps_len_indices : keeps len_indices.
Proof. by apply keeps_same. Qed.
Lemma keeps_get_item i : keeps (get_item i).
Proof. apply keeps_same. intros q. unfold get_item. by destruct (_ !! _). Qed.
Lemma keeps_get_last : keeps get_last.
Proof. apply keeps_same. intros q. unfold get_last. by destruct (last _). Qed.
Lemma keeps_set_item i x : keeps (set_item i x).
Proof. apply keeps_same. intros q. unfold set_item. by destruct (decide _). Qed.
Lemma keeps_append x : keeps (append x).
Proof. by apply keeps_same. Qed.
Lemma keeps_pop : keeps pop.
Proof. apply keeps_same. intros q. unfold pop. by destruct (last _). Qed.
Lemma keeps_get_index k : keeps (get_index k).
Proof. apply keeps_same. intros q. unfold get_index. by destruct (_ !! _). Qed.
Lemma keeps_set_index k i : keeps (set_index k i).
Proof. by apply keeps_same. Qed.
Lemma keeps_del_index k : keeps (del_index k).
Proof. apply keeps_same. intros q. unfold del_index. by destruct (_ !! _). Qed.



Create HintDb keeps.
#[local] Hint Resolve keeps_ret keeps_raise keeps_len_data keeps_len_indices
  keeps_get_item keeps_get_last keeps_set_item keeps_append keeps_pop
  keeps_get_index keeps_set_index keeps_del_index : keeps.













(** ** The executable checks are sound *)

Lemma heap_invb_true l : heap_invb l = true → heap_inv l.
Proof.
  unfold heap_invb. rewrite forallb_forall. intros H i ch x y Hch Hx Hy.
  destruct (is_child_parent i ch Hch) as (Hp & Hn0 & _).
  pose proof (lookup_lt_Some _ _ _ Hy) as Ly.
  specialize (H ch). rewrite Hp, Hx, Hy in H.
  eapply bool_decide_eq_true_1, H, in_seq. lia.
Qed.

Lemma pos_invb_true q : pos_invb q = true → pos_inv q.
Proof.
  unfold pos_invb. rewrite andb_true_iff, !forallb_forall.
  intros [Hf Hb]. split.
  - intros i x Hx. specialize (Hf (i, x)).
    eapply bool_decide_eq_true_1, Hf, list_elem_of_In.
    by apply (elem_of_lookup_imap_2 pair).
  - intros k i Hk. specialize (Hb (k, i)).
    eapply bool_decide_eq_true_1, Hb, list_elem_of_In.
    by apply elem_of_map_to_list.
Qed.

(** ** The recursion depth never decides a result *)

Lemma sift_up_fuel c f1 f2 i q :
  i < f1 → i < f2 → i < length (data q) →
  _sift_up_rec c f1 i q = _sift_up_rec c f2 i q.
Proof.
  revert f2 i q. induction f1 as [|f1 IH]; intros [|f2] i q H1 H2 Hi; try lia.
  destruct (decide (i = 0)) as [->|Hne]; [done|].
  pose proof (parent_lt i Hne) as Hlt.
  destruct (lookup_lt_is_Some_2 (data q) (_parent_index i)) as [p Hp]; [lia|].
  destruct (lookup_lt_is_Some_2 (data q) i) as [x Hx]; [lia|].
  rewrite !(sift_up_rec_step c _ i q p x Hne Hp Hx).
  case_bool_decide; [|done].
  apply IH; [lia..|]. rewrite swapped_length. simpl. lia.
Qed.

Lemma sift_down_fuel c f1 f2 i q :
  length (data q) - i ≤ f1 → length (data q) - i ≤ f2 →
  i < length (data q) →
  _sift_down_rec c f1 i q = _sift_down_rec c f2 i q.
Proof.
  revert f2 i q. induction f1 as [|f1 IH]; intros [|f2] i q H1 H2 Hi; try lia.
  destruct (lookup_lt_is_Some_2 (data q) i) as [p Hp]; [lia|].
  destruct (select_run i q) as (r & q1 & _ & Hsel).
  rewrite !(sift_down_rec_step c _ i q p r q1 Hp Hsel).
  destruct r as [ci|]; [|done].
  pose proof (select_some _ _ _ _ Hsel) as (Hch & Hlt & Hd & _).
  destruct (data q !! ci) as [y|]; [|done].
  case_bool_decide; [|done].
  apply IH; rewrite swapped_length; simpl; rewrite Hd; destruct Hch; lia.
Qed.

(** The depth bound is never what stops a run: no method raises
    [RecursionError], from any state. *)
Lemma sift_up_depth c fuel i q q' :
  i < fuel → _sift_up_rec c fuel i q ≠ Raise RecursionError q'.
Proof.
  revert i q. induction fuel as [|fuel IH]; intros i q Hf; [lia|].
  destruct (decide (i = 0)) as [->|Hne]; [done|].
  destruct (data q !! _parent_index i) as [p|] eqn:Hp.
  2:{ cbn [_sift_up_rec]. rewrite decide_True by done.
      unfold bind, get_item. by rewrite Hp. }
  destruct (data q !! i) as [x|] eqn:Hx.
  2:{ cbn [_sift_up_rec]. rewrite decide_True by done.
      unfold bind, get_item. by rewrite Hp, Hx. }
  rewrite (sift_up_rec_step c fuel i q p x Hne Hp Hx).
  case_bool_decide; [|done]. apply IH. pose proof (parent_lt i Hne). lia.
Qed.

Lemma sift_down_depth c fuel i q q' :
  0 < fuel → length (data q) ≤ fuel + i →
  _sift_down_rec c fuel i q ≠ Raise RecursionError q'.
Proof.
  revert i q. induction fuel as [|fuel IH]; intros i q Hf Hlen; [lia|].
  destruct (data q !! i) as [p|] eqn:Hp.
  2:{ cbn [_sift_down_rec]. unfold bind, get_item. by rewrite Hp. }
  destruct (select_run i q) as (r & q1 & _ & Hsel).
  rewrite (sift_down_rec_step c fuel i q p r q1 Hp Hsel).
  destruct r as [ci|]; [|done].
  pose proof (select_some _ _ _ _ Hsel) as (Hch & Hlt & Hd & _).
  destruct (data q !! ci) as [y|]; [|done].
  case_bool_decide; [|done].
  apply IH; rewrite ?swapped_length; simpl; rewrite ?Hd; destruct Hch; lia.
Qed.

Lemma sift_never_exhausts c i q q' :
  _sift_up c i q ≠ Raise RecursionError q' ∧
  _sift_down c i q ≠ Raise RecursionError q'.
Proof.
  split; [apply sift_up_depth; lia|].
  unfold _sift_down. apply sift_down_depth; lia.
Qed.

(** ** A concrete editable queue *)

Lemma q_ba_pos : pos_inv q_ba.
Proof. apply pos_invb_true. vm_compute. reflexivity. Qed.

Lemma q_ba_heap : heap_inv (data q_ba).
Proof. apply heap_invb_true. vm_compute. reflexivity. Qed.

Lemma q_ba_wf c : wf c q_ba.
Proof. destruct c; [exact I|exact q_ba_pos]. Qed.

Lemma q_ba_nodup : NoDup (priority <$> data q_ba).
Proof. apply (bool_decide_unpack _). vm_compute. reflexivity. Qed.

(** ** Properties of the public operations *)

Lemma dequeue_all_spec c q :
  wf c q → heap_inv (data q) → NoDup (priority <$> data q) →
  ∃ out q', dequeue_all c q = Ok out q' ∧ data q' = [] ∧
            out ≡ₚ data q ∧ descending out.
Proof.
  intros Hwf Hh Hnd.
  destruct (dequeue_n_spec c (length (data q)) q Hwf Hh Hnd (le_n _))
    as (out & q' & Hrun & Hlen & Hdesc & _).
  destruct (dequeue_n_perm c _ q out q' Hwf Hrun) as (Hperm & _).
  assert (data q' = []) as Hnil.
  { apply Permutation_length in Hperm. rewrite length_app in Hperm.
    apply length_zero_iff_nil. lia. }
  exists out, q'. split_and!; [done..| |done].
  by rewrite Hperm, Hnil, app_nil_r.
Qed.

(** C1. From any well-formed queue of either class whose patients have
    pairwise distinct priorities, dequeuing until the queue is empty succeeds
    and returns all patients in strictly descending priority order; and
    after enqueuing a:5, b:9, c:1, d:7 one by one into an empty queue of
    either class, four dequeues return b, d, a, c. *)
Theorem dequeue_order :
  (∀ c q, wf c q → heap_inv (data q) → NoDup (priority <$> data q) →
     ∃ out q', dequeue_all c q = Ok out q' ∧ data q' = [] ∧
               out ≡ₚ data q ∧ descending out) ∧
  (∀ c, run_list
          (then_run (then_run (new c (Some []) false)
                              (for_each (enqueue c) [a5; b9; c1; d7]))
                    (dequeue_n c 4))
        = Some [b9; d7; a5; c1]).
Proof.
  split; [apply dequeue_all_spec|]. intros []; vm_compute; reflexivity.
Qed.

Lemma dequeue_order_witness :
  ∃ out q', dequeue_all EditablePatientHeapQueue q_ba = Ok out q' ∧
            data q' = [] ∧ out ≡ₚ data q_ba ∧ descending out.
Proof.
  apply (proj1 dequeue_order EditablePatientHeapQueue q_ba).
  - apply pos_invb_true. vm_compute. reflexivity.
  - apply heap_invb_true. vm_compute. reflexivity.
  - apply (bool_decide_unpack _). vm_compute. reflexivity.
Defined.

Lemma new_None_plain fast :
  new PatientHeapQueue None fast = new PatientHeapQueue (Some []) fast.
Proof. reflexivity. Qed.

Lemma new_None_editable fast :
  new EditablePatientHeapQueue None fast =
    Raise TypeError (set_indices ∅ blank).
Proof. reflexivity. Qed.

Lemma enqueue_spec c x q :
  ∃ q', enqueue c x q = Ok tt q' ∧ data q' ≡ₚ data q ++ [x] ∧
        (heap_inv (data q) → heap_inv (data q')) ∧
        (pos_inv q → indices q !! name x = None →
         c = EditablePatientHeapQueue → pos_inv q').
Proof.
  destruct (enqueue_run c x q) as (q' & Hrun & HR). exists q'.
  split_and!; [done| | |].
  - by eapply (sift_up_R_stable c (fun q0 => data q0 ≡ₚ data q ++ [x]));
      [apply stable_perm|done|].
  - by eapply enqueue_heap.
  - intros Hp Hfresh ->.
    eapply sift_up_R_stable; [apply stable_pos_inv|done|].
    split; [|apply pushed_pos_bwd, Hp].
    apply pushed_pos_fwd; [apply Hp|]. by apply pos_inv_fresh.
Qed.

Lemma dequeue_ok_inv c q r q' :
  wf c q → dequeue c q = Ok r q' →
  ∃ rest, data q = r :: rest ∧ data q' ≡ₚ rest ∧
          (heap_inv (data q) → heap_inv (data q')) ∧ wf c q'.
Proof.
  intros Hwf Hrun. destruct (data q) as [|r0 rest] eqn:Hd.
  { by rewrite dequeue_empty in Hrun. }
  destruct (dequeue_spec c q r0 rest Hwf Hd)
    as (q1 & Hrun1 & Hperm & Hheap & Hwf1 & _).
  rewrite Hd in Hheap. rewrite Hrun1 in Hrun. simplify_eq. by exists rest.
Qed.

Lemma remove_ok_inv key q q' :
  pos_inv q → remove key q = Ok tt q' →
  ∃ ri z, indices q !! key = Some ri ∧ data q !! ri = Some z ∧ name z = key ∧
          data q ≡ₚ z :: data q' ∧ pos_inv q' ∧
          (heap_inv (data q) → heap_inv (data q')).
Proof.
  intros Hp Hrun. destruct (indices q !! key) as [ri|] eqn:Hk.
  2:{ by rewrite remove_absent in Hrun. }
  destruct (remove_spec key q ri Hp Hk)
    as (z & q1 & Hrun1 & Hz & Hn & Hperm & Hp1 & Hheap & _).
  rewrite Hrun1 in Hrun. simplify_eq. by exists ri, z.
Qed.

(** C2. Construction from a list succeeds in both modes and both classes,
    and yields a max-heap; enqueue always succeeds and keeps a max-heap a
    max-heap; whenever dequeue, or remove, returns from a well-formed queue
    that is a max-heap, the queue it leaves is a max-heap. *)
Theorem heap_invariant_preserved :
  (∀ c l fast, ∃ q', new c (Some l) fast = Ok tt q' ∧ heap_inv (data q')) ∧
  (∀ c start_data fast q',
     new c start_data fast = Ok tt q' → heap_inv (data q')) ∧
  (∀ c x q, heap_inv (data q) →
     ∃ q', enqueue c x q = Ok tt q' ∧ heap_inv (data q')) ∧
  (∀ c q r q', wf c q → heap_inv (data q) →
     dequeue c q = Ok r q' → heap_inv (data q')) ∧
  (∀ key q q', pos_inv q → heap_inv (data q) →
     remove key q = Ok tt q' → heap_inv (data q')).
Proof.
  split_and!.
  - intros c l fast.
    destruct (new_spec c l fast) as (q' & Hrun & _ & Hh & _). by exists q'.
  - intros c [l|] fast q' Hrun.
    + destruct (new_spec c l fast) as (q1 & Hrun1 & _ & Hh & _).
      rewrite Hrun1 in Hrun. by simplify_eq.
    + destruct c; [|by rewrite new_None_editable in Hrun].
      rewrite new_None_plain in Hrun.
      destruct (new_spec PatientHeapQueue [] fast)
        as (q1 & Hrun1 & _ & Hh & _).
      rewrite Hrun1 in Hrun. by simplify_eq.
  - intros c x q Hh.
    destruct (enqueue_spec c x q) as (q' & Hrun & _ & Hheap & _).
    exists q'. auto.
  - intros c q r q' Hwf Hh Hrun.
    destruct (dequeue_ok_inv c q r q' Hwf Hrun) as (rest & _ & _ & Hheap & _).
    auto.
  - intros key q q' Hp Hh Hrun.
    destruct (remove_ok_inv key q q' Hp Hrun)
      as (ri & z & _ & _ & _ & _ & _ & Hheap). auto.
Qed.

Lemma heap_invariant_preserved_witness :
  (∃ q', enqueue EditablePatientHeapQueue d7 q_ba = Ok tt q' ∧
         heap_inv (data q')) ∧
  heap_inv (data (final (dequeue EditablePatientHeapQueue q_ba))) ∧
  heap_inv (data (final (remove "b" q_ba))).
Proof.
  destruct heap_invariant_preserved as (_ & _ & Henq & Hdeq & Hrem).
  split_and!.
  - apply Henq. apply heap_invb_true. vm_compute. reflexivity.
  - eapply (Hdeq EditablePatientHeapQueue q_ba b9).
    + apply pos_invb_true. vm_compute. reflexivity.
    + apply heap_invb_true. vm_compute. reflexivity.
    + vm_compute. reflexivity.
  - eapply (Hrem "b" q_ba).
    + apply pos_invb_true. vm_compute. reflexivity.
    + apply heap_invb_true. vm_compute. reflexivity.
    + vm_compute. reflexivity.
Defined.

Lemma pos_fwd_NoDup q : pos_fwd q → NoDup (name <$> data q).
Proof.
  intros Hf. apply NoDup_alt. intros i j k. rewrite !list_lookup_fmap.
  intros Hi Hj.
  destruct (data q !! i) as [x|] eqn:Hx; [|done].
  destruct (data q !! j) as [y|] eqn:Hy; [|done].
  simplify_eq/=. by eapply pos_fwd_inj.
Qed.

(** C3. For the editable queue: construction from patients with unique
    names succeeds in both modes and leaves the name -> index map consistent
    with the storage; so does enqueue of a patient whose name is not in the
    map; so does every dequeue or remove that returns; and a consistent map
    has exactly as many entries as there are stored patients, whose names
    are pairwise distinct. *)
Theorem position_invariant_preserved :
  (∀ l fast, NoDup (name <$> l) →
     ∃ q', new EditablePatientHeapQueue (Some l) fast = Ok tt q' ∧
           pos_inv q') ∧
  (∀ x q, pos_inv q → indices q !! name x = None →
     ∃ q', enqueue EditablePatientHeapQueue x q = Ok tt q' ∧ pos_inv q') ∧
  (∀ q r q', pos_inv q →
     dequeue EditablePatientHeapQueue q = Ok r q' → pos_inv q') ∧
  (∀ key q q', pos_inv q → remove key q = Ok tt q' → pos_inv q') ∧
  (∀ q, pos_inv q →
     size (indices q) = length (data q) ∧ NoDup (name <$> data q)).
Proof.
  split_and!.
  - intros l fast Hnd.
    destruct (new_spec EditablePatientHeapQueue l fast)
      as (q' & Hrun & _ & _ & _ & Hwf). exists q'. split; [done|]. by apply Hwf.
  - intros x q Hp Hfresh.
    destruct (enqueue_spec EditablePatientHeapQueue x q)
      as (q' & Hrun & _ & _ & Hpos). exists q'. auto.
  - intros q r q' Hp Hrun.
    by destruct (dequeue_ok_inv EditablePatientHeapQueue q r q' Hp Hrun)
      as (rest & _ & _ & _ & Hwf).
  - intros key q q' Hp Hrun.
    by destruct (remove_ok_inv key q q' Hp Hrun)
      as (ri & z & _ & _ & _ & _ & Hp' & _).
  - intros q Hp. split; [by apply pos_inv_size|].
    apply pos_fwd_NoDup, Hp.
Qed.

Lemma position_invariant_preserved_witness :
  (∃ q', new EditablePatientHeapQueue (Some [a5; b9; c1; d7]) true
           = Ok tt q' ∧ pos_inv q') ∧
  (∃ q', enqueue EditablePatientHeapQueue d7 q_ba = Ok tt q' ∧ pos_inv q') ∧
  pos_inv (final (dequeue EditablePatientHeapQueue q_ba)) ∧
  pos_inv (final (remove "b" q_ba)) ∧
  (size (indices q_ba) = length (data q_ba) ∧ NoDup (name <$> data q_ba)).
Proof.
  destruct position_invariant_preserved as (Hnew & Henq & Hdeq & Hrem & Hsz).
  split_and!.
  - apply Hnew. apply (bool_decide_unpack _). vm_compute. reflexivity.
  - apply Henq.
    + apply pos_invb_true. vm_compute. reflexivity.
    + vm_compute. reflexivity.
  - eapply (Hdeq q_ba b9).
    + apply pos_invb_true. vm_compute. reflexivity.
    + vm_compute. reflexivity.
  - eapply (Hrem "b" q_ba).
    + apply pos_invb_true. vm_compute. reflexivity.
    + vm_compute. reflexivity.
  - apply Hsz. apply pos_invb_true. vm_compute. reflexivity.
  - apply Hsz. apply pos_invb_true. vm_compute. reflexivity.
Defined.

Lemma dequeue_n_elems c n q out q' y :
  wf c q → dequeue_n c n q = Ok out q' → y ∈ out → y ∈ data q.
Proof.
  intros Hwf Hrun Hy.
  destruct (dequeue_n_perm c n q out q' Hwf Hrun) as (Hperm & _).
  rewrite Hperm. apply elem_of_app. by left.
Qed.

(** C4. Removing a name that the map of a well-formed editable max-heap
    records succeeds; it takes out exactly the patient stored under that
    name and nothing else, the size drops by one, the queue stays a max-heap
    with a consistent map, the name is gone from the map, and no run of
    dequeues from the resulting queue returns a patient of that name.
    After enqueuing a:5, b:9, c:1, d:7 and removing "a", dequeuing
    everything yields b, d, c. *)
Theorem remove_correct :
  (∀ key q ri, pos_inv q → heap_inv (data q) → indices q !! key = Some ri →
     ∃ z q', remove key q = Ok tt q' ∧
       data q !! ri = Some z ∧ name z = key ∧
       data q ≡ₚ z :: data q' ∧
       S (length (data q')) = length (data q) ∧
       heap_inv (data q') ∧ pos_inv q' ∧
       indices q' !! key = None ∧
       (∀ n out q'', dequeue_n EditablePatientHeapQueue n q' = Ok out q'' →
          ∀ y, y ∈ out → name y ≠ key ∧ y ≠ z)) ∧
  run_list
    (then_run
       (then_run
          (then_run (new EditablePatientHeapQueue (Some []) false)
                    (for_each (enqueue EditablePatientHeapQueue)
                              [a5; b9; c1; d7]))
          (remove "a"))
       (dequeue_all EditablePatientHeapQueue))
  = Some [b9; d7; c1].
Proof.
  split; [|vm_compute; reflexivity].
  intros key q ri Hp Hh Hk.
  destruct (remove_spec key q ri Hp Hk)
    as (z & q' & Hrun & Hz & Hn & Hperm & Hp' & Hheap & _).
  assert (∀ y, y ∈ data q' → name y ≠ key) as Hgone.
  { intros y Hy Heq.
    pose proof (pos_fwd_NoDup q (proj1 Hp)) as Hnd.
    rewrite Hperm, fmap_cons in Hnd. apply NoDup_cons in Hnd as [Hnotin _].
    apply Hnotin. rewrite Hn, <-Heq. by apply list_elem_of_fmap_2. }
  exists z, q'. split_and!; [done..| |by auto|done| |].
  - apply Permutation_length in Hperm. simpl in Hperm. lia.
  - destruct (indices q' !! key) as [v|] eqn:Hv; [|done].
    pose proof (proj2 Hp' _ _ Hv) as Hd.
    destruct (data q' !! v) as [y|] eqn:Hy; [|done]. simplify_eq/=.
    destruct (Hgone y); [by eapply list_elem_of_lookup_2|done].
  - intros n out q'' Hrun' y Hy.
    pose proof (dequeue_n_elems EditablePatientHeapQueue n q' out q'' y
                  Hp' Hrun' Hy) as Hin.
    split; [by apply Hgone|]. intros ->. by apply (Hgone z).
Qed.

Lemma remove_correct_witness :
  ∃ z q', remove "b" q_ba = Ok tt q' ∧
    data q_ba !! 0 = Some z ∧ name z = "b" ∧
    data q_ba ≡ₚ z :: data q' ∧
    S (length (data q')) = length (data q_ba) ∧
    heap_inv (data q') ∧ pos_inv q' ∧
    indices q' !! "b" = None ∧
    (∀ n out q'', dequeue_n EditablePatientHeapQueue n q' = Ok out q'' →
       ∀ y, y ∈ out → name y ≠ "b" ∧ y ≠ z).
Proof.
  apply (proj1 remove_correct "b" q_ba 0).
  - apply pos_invb_true. vm_compute. reflexivity.
  - apply heap_invb_true. vm_compute. reflexivity.
  - vm_compute. reflexivity.
Defined.

(** C5. On a well-formed queue of either class, dequeue raises exactly when
    the storage is empty, and then leaves the object as it was; on a
    well-formed editable queue, remove raises exactly when the name is
    absent from the map, and then leaves the object as it was. *)
Theorem failures_leave_queue_unchanged :
  (∀ c q, wf c q →
     (length (data q) = 0 → dequeue c q = Raise IndexError q) ∧
     (length (data q) ≠ 0 → ∃ r q', dequeue c q = Ok r q')) ∧
  (∀ key q, pos_inv q →
     (indices q !! key = None → remove key q = Raise KeyError q) ∧
     (indices q !! key ≠ None → ∃ q', remove key q = Ok tt q')).
Proof.
  split.
  - intros c q Hwf. split.
    + intros Hlen. apply dequeue_empty. by apply length_zero_iff_nil.
    + intros Hlen. destruct (data q) as [|r rest] eqn:Hd; [done|].
      destruct (dequeue_spec c q r rest Hwf Hd) as (q' & Hrun & _).
      by exists r, q'.
  - intros key q Hp. split; [apply remove_absent|].
    intros Hk. destruct (indices q !! key) as [ri|] eqn:Hri; [|done].
    destruct (remove_spec key q ri Hp Hri) as (z & q' & Hrun & _).
    by exists q'.
Qed.

Lemma failures_leave_queue_unchanged_witness :
  dequeue EditablePatientHeapQueue blank = Raise IndexError blank ∧
  (∃ r q', dequeue EditablePatientHeapQueue q_ba = Ok r q') ∧
  remove "z" q_ba = Raise KeyError q_ba ∧
  (∃ q', remove "a" q_ba = Ok tt q').
Proof.
  destruct failures_leave_queue_unchanged as [Hdeq Hrem].
  assert (pos_inv blank) as Hb.
  { apply pos_invb_true. vm_compute. reflexivity. }
  assert (pos_inv q_ba) as Hq.
  { apply pos_invb_true. vm_compute. reflexivity. }
  split_and!.
  - apply (Hdeq EditablePatientHeapQueue blank Hb). reflexivity.
  - apply (Hdeq EditablePatientHeapQueue q_ba Hq). simpl. lia.
  - apply (Hrem "z" q_ba Hq). vm_compute. reflexivity.
  - apply (Hrem "a" q_ba Hq). vm_compute. discriminate.
Defined.

(** C6. For patients with pairwise distinct priorities (and, for the
    editable class, pairwise distinct names), the queue built by repeated
    enqueue and the queue built by the linear heapify both dequeue, until
    empty, the same sequence: the input in strictly descending priority
    order.  Their storage layouts can differ. *)
Theorem construction_equivalence :
  (∀ c l, NoDup (priority <$> l) →
     (c = EditablePatientHeapQueue → NoDup (name <$> l)) →
     ∃ out,
       run_list (then_run (new c (Some l) false) (dequeue_all c)) = Some out ∧
       run_list (then_run (new c (Some l) true) (dequeue_all c)) = Some out ∧
       out ≡ₚ l ∧ descending out) ∧
  (∃ l, NoDup (priority <$> l) ∧
        data (final (new PatientHeapQueue (Some l) false)) ≠
        data (final (new PatientHeapQueue (Some l) true))).
Proof.
  split.
  - intros c l Hnd Hnames.
    assert (∀ fast, ∃ out,
      run_list (then_run (new c (Some l) fast) (dequeue_all c)) = Some out ∧
      out ≡ₚ l ∧ descending out) as Hone.
    { intros fast.
      destruct (new_spec c l fast) as (q & Hrun & Hperm & Hh & _ & Hwf).
      assert (wf c q) as Hwfq.
      { destruct c; [exact I|]. by apply Hwf, Hnames. }
      destruct (dequeue_all_spec c q Hwfq Hh) as (out & q' & Hd & _ & Hp & Hs).
      { by rewrite Hperm. }
      exists out. rewrite Hrun. cbn. rewrite Hd. cbn.
      split_and!; [done| |done]. by rewrite Hp. }
    destruct (Hone false) as (out1 & H1 & P1 & S1).
    destruct (Hone true) as (out2 & H2 & P2 & S2).
    assert (out2 = out1) as ->.
    { apply (StronglySorted_unique_strong
               (fun x y => (priority x > priority y)%Z)); [|done..|].
      - intros x1 x2 _ _ ? ?. lia.
      - by rewrite P1, P2. }
    by exists out1.
  - exists [c1; a5; b9]. split.
    + apply (bool_decide_unpack _). vm_compute. reflexivity.
    + vm_compute. discriminate.
Qed.

Lemma construction_equivalence_witness :
  ∃ out,
    run_list (then_run (new EditablePatientHeapQueue (Some [a5; b9; c1; d7])
                            false)
                       (dequeue_all EditablePatientHeapQueue)) = Some out ∧
    run_list (then_run (new EditablePatientHeapQueue (Some [a5; b9; c1; d7])
                            true)
                       (dequeue_all EditablePatientHeapQueue)) = Some out ∧
    out ≡ₚ [a5; b9; c1; d7] ∧ descending out.
Proof.
  apply (proj1 construction_equivalence).
  - apply (bool_decide_unpack _). vm_compute. reflexivity.
  - intros _. apply (bool_decide_unpack _). vm_compute. reflexivity.
Defined.

(** C7 (what the code does).  With the default [start_data=None] the base
    constructor builds the empty queue, and so does the editable one when it
    is given an explicit empty list; but the editable constructor called
    with the default raises [TypeError] while enumerating [None], before it
    reaches the base constructor. *)
Theorem editable_default_construction_raises :
  (∀ fast, new PatientHeapQueue None fast = Ok tt blank) ∧
  (∀ fast, new EditablePatientHeapQueue (Some []) fast = Ok tt blank) ∧
  (∀ fast, new EditablePatientHeapQueue None fast = Raise TypeError blank).
Proof. split_and!; intros []; reflexivity. Qed.

Lemma select_of_run i q r q1 :
  _max_child_priority_index (_child_indices i) q = Ok r q1 →
  select_R i q r q1.
Proof.
  intros Hrun. destruct (select_run i q) as (r' & q1' & Hrun' & Hsel).
  rewrite Hrun in Hrun'. by simplify_eq.
Qed.

Lemma select_is_run i q r q1 :
  select_R i q r q1 →
  _max_child_priority_index (_child_indices i) q = Ok r q1.
Proof.
  intros Hsel. destruct (select_run i q) as (r' & q1' & Hrun' & Hsel').
  by destruct (select_det _ _ _ _ _ _ Hsel Hsel') as [-> ->].
Qed.

Lemma ancestor_parent n i : ancestor n ((i - 1) / 2) = ancestor (S n) i.
Proof.
  induction n as [|n IH]; [done|].
  change (ancestor (S n) ((i - 1) / 2))
    with ((ancestor n ((i - 1) / 2) - 1) / 2).
  by rewrite IH.
Qed.

Lemma ancestor_le n i : ancestor n i ≤ i.
Proof.
  induction n as [|n IH]; [done|].
  change (ancestor (S n) i) with (_parent_index (ancestor n i)).
  destruct (decide (ancestor n i = 0)) as [->|Hne]; [cbn; lia|].
  pose proof (parent_lt _ Hne). lia.
Qed.

Lemma ancestor_lt n i : ancestor n i ≠ 0 → ancestor (S n) i < ancestor n i.
Proof. apply parent_lt. Qed.

(** Where [_sift_up] carries the patient [x] of slot [i]: [n] levels up,
    past ancestors that it strictly outranks. *)
Lemma sift_up_R_path c i q q' x :
  sift_up_R c i q q' → data q !! i = Some x →
  ∃ n,
    data q' !! ancestor n i = Some x ∧
    (∀ m, m < n →
       ancestor m i ≠ 0 ∧
       ∃ y, data q !! ancestor (S m) i = Some y ∧
            (priority y < priority x)%Z ∧
            data q' !! ancestor m i = Some y) ∧
    (ancestor n i = 0 ∨
     ∃ y, data q !! ((ancestor n i - 1) / 2) = Some y ∧
          (priority x ≤ priority y)%Z) ∧
    (∀ j, (∀ m, m ≤ n → j ≠ ancestor m i) → data q' !! j = data q !! j).
Proof.
  intros HR. revert x.
  induction HR as [q|i q p x0 Hi Hp Hx Hle|i q p x0 q' Hi Hp Hx Hlt _ IH];
    intros x Hxi.
  - exists 0. split_and!; [done|lia|by left|done].
  - assert (x0 = x) as -> by congruence.
    exists 0. split_and!; [done|lia| |done].
    right. exists p. by split.
  - assert (x0 = x) as -> by congruence.
    pose proof (parent_lt i Hi) as Hpi.
    set (pi := _parent_index i) in *.
    set (q2 := swapped c i pi x p (tick p x q)) in *.
    assert (Hl2 : ∀ k, data q2 !! k =
       if decide (k = pi) then Some x
       else if decide (k = i) then Some p else data q !! k).
    { intros k. unfold q2.
      rewrite (swapped_lookup c i pi x p (tick p x q)); [done|lia|done..]. }
    assert (Hanc : ∀ m, ancestor (S m) i = ancestor m pi).
    { intros m. symmetry. apply ancestor_parent. }
    destruct (IH x) as (n & H1 & H2 & H3 & H4).
    { rewrite Hl2. by rewrite decide_True. }
    assert (Hbelow : ∀ k, k < pi → data q2 !! k = data q !! k).
    { intros k Hk. rewrite Hl2. by rewrite !decide_False by lia. }
    exists (S n). split_and!.
    + by rewrite Hanc.
    + intros [|m] Hm.
      * split; [done|]. exists p. rewrite Hanc. split_and!; [done..|].
        change (ancestor 0 i) with i. rewrite H4, Hl2.
        -- rewrite decide_False by lia. by rewrite decide_True.
        -- intros m' _. pose proof (ancestor_le m' pi). lia.
      * destruct (H2 m ltac:(lia)) as (Hne & y & Hy & Hlty & Hq').
        rewrite !Hanc. split; [done|]. exists y. split_and!; [|done..].
        rewrite <-Hbelow; [done|].
        pose proof (ancestor_lt m pi Hne). pose proof (ancestor_le m pi). lia.
    + rewrite Hanc. destruct H3 as [H0|(y & Hy & Hle)]; [by left|].
      destruct (decide (ancestor n pi = 0)) as [H0|Hne]; [by left|].
      right. exists y. split; [|done]. rewrite <-Hbelow; [done|].
      pose proof (ancestor_lt n pi Hne). pose proof (ancestor_le n pi).
      change ((ancestor n pi - 1) / 2) with (ancestor (S n) pi). lia.
    + intros j Hj. rewrite H4.
      * rewrite Hl2. pose proof (Hj 0 ltac:(lia)) as J0.
        pose proof (Hj 1 ltac:(lia)) as J1.
        change (ancestor 0 i) with i in J0.
        change (ancestor 1 i) with pi in J1.
        by rewrite !decide_False.
      * intros m Hm. rewrite <-Hanc. apply Hj. lia.
Qed.

(** Where [_sift_down] carries the patient [x] of slot [i]: along [path],
    each time into the child of greater priority (the first child on a tie),
    as long as that child strictly outranks [x]. *)
Lemma sift_down_R_path c i q q' x :
  sift_down_R c i q q' → data q !! i = Some x →
  ∃ path k,
    path !! 0 = Some i ∧ last path = Some k ∧
    Forall (fun j => i ≤ j) path ∧
    data q' !! k = Some x ∧
    (∀ m a b, path !! m = Some a → path !! S m = Some b →
       (b = 2 * a + 1 ∨ b = 2 * a + 2) ∧
       ∃ y, data q !! b = Some y ∧ (priority y > priority x)%Z ∧
            data q' !! a = Some y ∧
            (∀ ch z, ch = 2 * a + 1 ∨ ch = 2 * a + 2 →
               data q !! ch = Some z → (priority z ≤ priority y)%Z) ∧
            (b = 2 * a + 2 →
             ∃ z, data q !! (2 * a + 1) = Some z ∧
                  (priority z < priority y)%Z)) ∧
    (∀ ch z, ch = 2 * k + 1 ∨ ch = 2 * k + 2 →
       data q !! ch = Some z → (priority z ≤ priority x)%Z) ∧
    (∀ j, j ∉ path → data q' !! j = data q !! j).
Proof.
  intros HR. revert x.
  induction HR as [i q p Hp Hlen|i q q1 ci p y Hp Hsel Hy Hle
                   |i q q1 ci p y q' Hp Hsel Hy Hgt _ IH]; intros x Hxi.
  - exists [i], i. split_and!; [done|done|by repeat constructor|done| | |done].
    + intros m a b Ha Hb. destruct m; done.
    + intros ch z Hch Hz. apply lookup_lt_Some in Hz. lia.
  - assert (p = x) as -> by congruence.
    pose proof (select_some _ _ _ _ Hsel) as (_ & _ & Hd & _ & Hmax & _).
    exists [i], i. cbn [data tick]. rewrite Hd.
    split_and!; [done|done|by repeat constructor|done| | |done].
    + intros m a b Ha Hb. destruct m; done.
    + intros ch z Hch Hz. pose proof (Hmax ch Hch _ _ Hy Hz). lia.
  - assert (p = x) as -> by congruence.
    pose proof (select_some _ _ _ _ Hsel)
      as (Hch & Hlt & Hd & _ & Hmax & Htie).
    destruct (is_child_parent _ _ Hch) as (_ & _ & Hici).
    set (q2 := swapped c i ci x y (tick y x q1)) in *.
    assert (Hl2 : ∀ k, data q2 !! k =
       if decide (k = ci) then Some x
       else if decide (k = i) then Some y else data q !! k).
    { intros k. unfold q2.
      rewrite (swapped_lookup c i ci x y (tick y x q1)); cbn [data tick];
        rewrite ?Hd; [done|lia|done..]. }
    assert (Hbelow : ∀ k, ci < k → data q2 !! k = data q !! k).
    { intros k Hk. rewrite Hl2. by rewrite !decide_False by lia. }
    destruct (IH x) as (path & k & P0 & Pl & Pge & Pk & Pstep & Pend & Pout).
    { rewrite Hl2. by rewrite decide_True. }
    assert (Hnotin : i ∉ path).
    { intros Hin. rewrite Forall_forall in Pge. apply Pge in Hin. lia. }
    exists (i :: path), k. split_and!.
    + done.
    + destruct path as [|a path]; [done|]. by rewrite last_cons, Pl.
    + constructor; [done|]. eapply Forall_impl; [done|].
      intros j Hj. simpl in Hj. simpl. lia.
    + done.
    + intros [|m] a b Ha Hb.
      * change (Some i = Some a) in Ha. change (path !! 0 = Some b) in Hb.
        injection Ha as <-.
        assert (b = ci) as -> by congruence. split; [exact Hch|].
        exists y. split_and!; [done|lia| | |].
        -- rewrite Pout by done. rewrite Hl2.
           rewrite decide_False by lia. by rewrite decide_True.
        -- intros ch z Hc Hz. by apply (Hmax ch Hc _ _ Hy Hz).
        -- intros ->. destruct (Htie eq_refl) as (z1 & z2 & Hz1 & Hz2 & Hz).
           exists z1. split; [done|].
           assert (z2 = y) as -> by congruence. lia.
      * change (path !! m = Some a) in Ha.
        change (path !! S m = Some b) in Hb.
        assert (ci ≤ a) as Hca.
        { rewrite Forall_forall in Pge. apply Pge.
          by eapply list_elem_of_lookup_2. }
        destruct (Pstep m a b Ha Hb)
          as (Hab & y' & Hy' & Hgt' & Hq' & Hmax' & Htie').
        split; [done|]. exists y'. split_and!; [|done|done| |].
        -- rewrite <-Hbelow; [done|]. lia.
        -- intros ch z Hc Hz. apply (Hmax' ch z Hc).
           rewrite Hbelow; [done|]. lia.
        -- intros Hb2. destruct (Htie' Hb2) as (z & Hz & Hzy).
           exists z. split; [|done]. rewrite <-Hbelow; [done|]. lia.
    + assert (ci ≤ k) as Hck.
      { rewrite Forall_forall in Pge. apply Pge.
        apply last_Some in Pl as [l' ->]. apply elem_of_app. right. by left. }
      intros ch z Hc Hz. apply (Pend ch z Hc). rewrite Hbelow; [done|]. lia.
    + intros j Hj. apply not_elem_of_cons in Hj as [Hji Hjp].
      rewrite Pout by done. rewrite Hl2.
      assert (j ≠ ci).
      { intros ->. apply Hjp. by eapply list_elem_of_lookup_2. }
      by rewrite !decide_False.
Qed.

(** C8. [_max_child_priority_index] prefers the second child (slot
    [2i+2]) only when its priority is strictly greater, so the first child
    (slot [2i+1]) wins ties.  [_sift_down] stops without touching the
    storage when the chosen child does not strictly outrank the patient, and
    otherwise exchanges them and carries on from the child's slot; in all,
    it carries the patient down a path that steps each time into the child
    of greater priority (the first on a tie), past children that strictly
    outrank it, and leaves it where no child in range outranks it.
    [_sift_up] does nothing at the root; at slot [2p+1] or [2p+2] it stops
    without touching the storage when the patient at [p] is not strictly
    outranked, and otherwise exchanges the two and carries on from [p]; in
    all, it carries the patient up past the ancestors it strictly outranks,
    each of which moves one level down, and leaves it at the root or below
    the first ancestor whose priority is greater or equal; no other slot
    changes. *)
Theorem sift_tie_breaks :
  (∀ i q a b,
     data q !! (2 * i + 1) = Some a → data q !! (2 * i + 2) = Some b →
     ((priority b ≤ priority a)%Z →
      _max_child_priority_index (_child_indices i) q
        = Ok (Some (2 * i + 1)) (tick b a q)) ∧
     ((priority b > priority a)%Z →
      _max_child_priority_index (_child_indices i) q
        = Ok (Some (2 * i + 2)) (tick b a q))) ∧
  (∀ i q, length (data q) = 2 * i + 2 →
     _max_child_priority_index (_child_indices i) q
       = Ok (Some (2 * i + 1)) q) ∧
  (∀ i q, length (data q) ≤ 2 * i + 1 →
     _max_child_priority_index (_child_indices i) q = Ok None q) ∧
  (∀ c i q p, data q !! i = Some p → length (data q) ≤ 2 * i + 1 →
     _sift_down c i q = Ok tt q) ∧
  (∀ c i q p ci q1 y,
     data q !! i = Some p →
     _max_child_priority_index (_child_indices i) q = Ok (Some ci) q1 →
     data q !! ci = Some y →
     ((priority y ≤ priority p)%Z →
      _sift_down c i q = Ok tt (tick y p q1)) ∧
     ((priority y > priority p)%Z →
      _sift_down c i q
        = _sift_down c ci (swapped c i ci p y (tick y p q1)))) ∧
  (∀ c i q x, data q !! i = Some x →
     ∃ path k q',
       _sift_down c i q = Ok tt q' ∧
       path !! 0 = Some i ∧ last path = Some k ∧
       data q' !! k = Some x ∧
       (∀ m a b, path !! m = Some a → path !! S m = Some b →
          (b = 2 * a + 1 ∨ b = 2 * a + 2) ∧
          ∃ y, data q !! b = Some y ∧ (priority y > priority x)%Z ∧
               data q' !! a = Some y ∧
               (∀ ch z, ch = 2 * a + 1 ∨ ch = 2 * a + 2 →
                  data q !! ch = Some z → (priority z ≤ priority y)%Z) ∧
               (b = 2 * a + 2 →
                ∃ z, data q !! (2 * a + 1) = Some z ∧
                     (priority z < priority y)%Z)) ∧
       (∀ ch z, ch = 2 * k + 1 ∨ ch = 2 * k + 2 →
          data q !! ch = Some z → (priority z ≤ priority x)%Z) ∧
       (∀ j, j ∉ path → data q' !! j = data q !! j)) ∧
  (∀ c q, _sift_up c 0 q = Ok tt q) ∧
  (∀ c i p q y x,
     i = 2 * p + 1 ∨ i = 2 * p + 2 →
     data q !! p = Some y → data q !! i = Some x →
     ((priority x ≤ priority y)%Z → _sift_up c i q = Ok tt (tick y x q)) ∧
     ((priority y < priority x)%Z →
      _sift_up c i q = _sift_up c p (swapped c i p x y (tick y x q)))) ∧
  (∀ c i q x, data q !! i = Some x →
     ∃ n q',
       _sift_up c i q = Ok tt q' ∧
       data q' !! ancestor n i = Some x ∧
       (∀ m, m < n →
          ancestor m i ≠ 0 ∧
          ∃ y, data q !! ancestor (S m) i = Some y ∧
               (priority y < priority x)%Z ∧
               data q' !! ancestor m i = Some y) ∧
       (ancestor n i = 0 ∨
        ∃ y, data q !! ((ancestor n i - 1) / 2) = Some y ∧
             (priority x ≤ priority y)%Z) ∧
       (∀ j, (∀ m, m ≤ n → j ≠ ancestor m i) →
          data q' !! j = data q !! j)).
Proof.
  split_and!.
  - intros i q a b Ha Hb.
    pose proof (sel_two i q a b _ Ha Hb eq_refl) as Hsel.
    apply select_is_run in Hsel. rewrite Hsel.
    split; intros Hcmp; case_bool_decide; (done || lia).
  - intros i q Hlen. apply select_is_run. by constructor.
  - intros i q Hlen. apply select_is_run. by constructor.
  - intros c i q p Hp Hlen. unfold _sift_down.
    by rewrite (sift_down_rec_step c _ i q p None q Hp (sel_none i q Hlen)).
  - intros c i q p ci q1 y Hp Hsel%select_of_run Hy.
    pose proof (select_some _ _ _ _ Hsel) as (Hch & Hlt & Hd & _).
    assert (_sift_down c i q =
            if bool_decide (priority y > priority p)%Z
            then _sift_down_rec c (length (data q)) ci
                   (swapped c i ci p y (tick y p q1))
            else Ok tt (tick y p q1)) as ->.
    { unfold _sift_down.
      by rewrite (sift_down_rec_step c _ i q p _ q1 Hp Hsel), Hy. }
    split; intros Hcmp; case_bool_decide; try (done || lia).
    unfold _sift_down.
    apply sift_down_fuel; rewrite swapped_length; simpl; rewrite Hd; lia.
  - intros c i q x Hx. pose proof (lookup_lt_Some _ _ _ Hx) as Hi.
    destruct (sift_down_run c (S (length (data q))) i q)
      as (q' & Hrun & HR); [lia|done|].
    destruct (sift_down_R_path c i q q' x HR Hx)
      as (path & k & P0 & Pl & _ & Pk & Pstep & Pend & Pout).
    by exists path, k, q'.
  - done.
  - intros c i p q y x Hch Hy Hx.
    destruct (is_child_parent p i Hch) as (Hpar & Hi & Hlt).
    rewrite <-Hpar in Hy.
    assert (_sift_up c i q =
            if bool_decide (priority y < priority x)%Z
            then _sift_up_rec c i (_parent_index i)
                   (swapped c i (_parent_index i) x y (tick y x q))
            else Ok tt (tick y x q)) as ->.
    { unfold _sift_up. by rewrite (sift_up_rec_step c _ i q y x Hi Hy Hx). }
    pose proof (lookup_lt_Some _ _ _ Hx). rewrite Hpar.
    split; intros Hcmp; case_bool_decide; try (done || lia).
    unfold _sift_up.
    apply sift_up_fuel; [lia..|]. rewrite swapped_length. simpl. lia.
  - intros c i q x Hx. pose proof (lookup_lt_Some _ _ _ Hx) as Hi.
    destruct (sift_up_run c (S i) i q) as (q' & Hrun & HR); [lia|done|].
    destruct (sift_up_R_path c i q q' x HR Hx) as (n & H1 & H2 & H3 & H4).
    by exists n, q'.
Qed.

Lemma sift_tie_breaks_witness :
  (_max_child_priority_index (_child_indices 0)
     (mkQueue [b9; a5; mkPatient "e" 5] 0 ∅ [])
   = Ok (Some 1) (tick (mkPatient "e" 5) a5
                    (mkQueue [b9; a5; mkPatient "e" 5] 0 ∅ []))) ∧
  (_sift_up PatientHeapQueue 3 (mkQueue [b9; a5; c1; d7] 0 ∅ [])
   = _sift_up PatientHeapQueue 1
       (swapped PatientHeapQueue 3 1 d7 a5
          (tick a5 d7 (mkQueue [b9; a5; c1; d7] 0 ∅ [])))) ∧
  (∃ n q',
     _sift_up PatientHeapQueue 3 (mkQueue [b9; a5; c1; d7] 0 ∅ [])
       = Ok tt q' ∧
     data q' !! ancestor n 3 = Some d7 ∧
     (∀ m, m < n →
        ancestor m 3 ≠ 0 ∧
        ∃ y, [b9; a5; c1; d7] !! ancestor (S m) 3 = Some y ∧
             (priority y < priority d7)%Z ∧
             data q' !! ancestor m 3 = Some y) ∧
     (ancestor n 3 = 0 ∨
      ∃ y, [b9; a5; c1; d7] !! ((ancestor n 3 - 1) / 2) = Some y ∧
           (priority d7 ≤ priority y)%Z) ∧
     (∀ j, (∀ m, m ≤ n → j ≠ ancestor m 3) →
        data q' !! j = [b9; a5; c1; d7] !! j)) ∧
  (∃ path k q',
     _sift_down PatientHeapQueue 0 (mkQueue [c1; b9; d7; a5] 0 ∅ [])
       = Ok tt q' ∧
     path !! 0 = Some 0 ∧ last path = Some k ∧
     data q' !! k = Some c1 ∧
     (∀ m a b, path !! m = Some a → path !! S m = Some b →
        (b = 2 * a + 1 ∨ b = 2 * a + 2) ∧
        ∃ y, [c1; b9; d7; a5] !! b = Some y ∧
             (priority y > priority c1)%Z ∧
             data q' !! a = Some y ∧
             (∀ ch z, ch = 2 * a + 1 ∨ ch = 2 * a + 2 →
                [c1; b9; d7; a5] !! ch = Some z →
                (priority z ≤ priority y)%Z) ∧
             (b = 2 * a + 2 →
              ∃ z, [c1; b9; d7; a5] !! (2 * a + 1) = Some z ∧
                   (priority z < priority y)%Z)) ∧
     (∀ ch z, ch = 2 * k + 1 ∨ ch = 2 * k + 2 →
        [c1; b9; d7; a5] !! ch = Some z → (priority z ≤ priority c1)%Z) ∧
     (∀ j, j ∉ path → data q' !! j = [c1; b9; d7; a5] !! j)).
Proof.
  destruct sift_tie_breaks
    as (Hsel & _ & _ & _ & _ & Hdown & _ & Hstep & Hup).
  split_and!.
  - apply (Hsel 0 (mkQueue [b9; a5; mkPatient "e" 5] 0 ∅ [])
             a5 (mkPatient "e" 5)).
    + reflexivity.
    + reflexivity.
    + simpl. lia.
  - apply (Hstep PatientHeapQueue 3 1 (mkQueue [b9; a5; c1; d7] 0 ∅ [])
             a5 d7).
    + left. reflexivity.
    + reflexivity.
    + reflexivity.
    + simpl. lia.
  - apply (Hup PatientHeapQueue 3 (mkQueue [b9; a5; c1; d7] 0 ∅ []) d7).
    reflexivity.
  - apply (Hdown PatientHeapQueue 0 (mkQueue [c1; b9; d7; a5] 0 ∅ []) c1).
    reflexivity.
Defined.







(** C10. The editable queue accepts two different patients of the same
    name: both enqueues return, the second overwrites the map entry the
    first had made, and the map is then inconsistent with the storage (the
    patient at slot 0 is recorded at slot 1, and two patients share one
    entry). *)
Theorem duplicate_key_corrupts_index :
  ∃ x y q1 q2,
    x ≠ y ∧ name x = name y ∧
    enqueue EditablePatientHeapQueue x blank = Ok tt q1 ∧ pos_inv q1 ∧
    enqueue EditablePatientHeapQueue y q1 = Ok tt q2 ∧
    indices q1 !! name x = Some 0 ∧ indices q2 !! name x = Some 1 ∧
    data q2 = [x; y] ∧ size (indices q2) = 1 ∧
    ¬ pos_inv q2.
Proof.
  exists a5, a3. eexists _, _.
  split_and!; [done|done|vm_compute; reflexivity| |vm_compute; reflexivity
              |vm_compute; reflexivity..|].
  - apply pos_invb_true. vm_compute. reflexivity.
  - intros [Hf _]. specialize (Hf 0 a5 eq_refl). vm_compute in Hf.
    discriminate.
Qed.

(** ** Contents and sizes *)

(** X1. [enqueue] returns from every state of either class: it never
    raises, the storage grows by exactly one slot, and it holds the patients
    it held before together with the new one. *)
Theorem enqueue_adds_one c x q :
  ∃ q', enqueue c x q = Ok tt q' ∧
        data q' ≡ₚ x :: data q ∧
        length (data q') = S (length (data q)).
Proof.
  destruct (enqueue_spec c x q) as (q' & Hrun & Hperm & _).
  exists q'. rewrite Permutation_app_comm in Hperm. split_and!; [done..|].
  by rewrite Hperm.
Qed.

(** X2. On a non-empty well-formed max-heap, [dequeue] returns the patient
    stored at slot 0; no stored patient has a greater priority (ties
    allowed); the storage shrinks by one and keeps exactly the other
    patients. *)
Theorem dequeue_returns_root_max c q :
  wf c q → heap_inv (data q) → data q ≠ [] →
  ∃ r q', dequeue c q = Ok r q' ∧ data q !! 0 = Some r ∧
          data q ≡ₚ r :: data q' ∧
          S (length (data q')) = length (data q) ∧
          ∀ y, y ∈ data q → (priority y ≤ priority r)%Z.
Proof.
  intros Hwf Hh Hne. destruct (data q) as [|r rest] eqn:Hd; [done|].
  destruct (dequeue_spec c q r rest Hwf Hd) as (q' & Hrun & Hperm & _).
  exists r, q'. split_and!; [done|done|by rewrite Hperm| |].
  - by rewrite Hperm.
  - by apply heap_inv_root_max.
Qed.

Lemma dequeue_returns_root_max_witness :
  ∃ r q', dequeue EditablePatientHeapQueue q_ba = Ok r q' ∧
          data q_ba !! 0 = Some r ∧ data q_ba ≡ₚ r :: data q' ∧
          S (length (data q')) = length (data q_ba) ∧
          ∀ y, y ∈ data q_ba → (priority y ≤ priority r)%Z.
Proof.
  apply (dequeue_returns_root_max EditablePatientHeapQueue q_ba).
  - apply pos_invb_true. vm_compute. reflexivity.
  - apply heap_invb_true. vm_compute. reflexivity.
  - discriminate.
Defined.

Lemma dequeue_n_weak c n q :
  wf c q → heap_inv (data q) → n ≤ length (data q) →
  ∃ out q', dequeue_n c n q = Ok out q' ∧ length out = n ∧
            StronglySorted (fun x y => (priority y ≤ priority x)%Z) out.
Proof.
  revert q. induction n as [|n IH]; intros q Hwf Hh Hn.
  { exists [], q. split_and!; [done..|constructor]. }
  destruct (data q) as [|r rest] eqn:Hd; [simpl in Hn; lia|].
  destruct (dequeue_spec c q r rest Hwf Hd)
    as (q1 & Hrun & Hperm & Hheap & Hwf1 & Hcnt).
  rewrite Hd in Hheap. specialize (Hheap Hh).
  destruct (IH q1) as (out1 & q2 & Hrun1 & Hlen & Hsort); [done..| |].
  { rewrite Hperm. simpl in Hn. lia. }
  exists (r :: out1), q2. cbn [dequeue_n]. unfold bind. rewrite Hrun, Hrun1.
  split_and!; [done|by simpl; f_equal|].
  constructor; [done|]. apply Forall_forall. intros y Hy.
  pose proof (dequeue_n_elems c n q1 out1 q2 y Hwf1 Hrun1 Hy) as Hin.
  rewrite Hperm in Hin.
  pose proof (heap_inv_root_max _ r Hh eq_refl y) as Hle.
  assert (priority y ≤ priority r)%Z by (apply Hle; by right). lia.
Qed.

(** X3. Dequeuing a well-formed max-heap until it is empty succeeds and
    returns every stored patient exactly once, by non-increasing priority,
    also when priorities tie. *)
Theorem dequeue_all_sorts c q :
  wf c q → heap_inv (data q) →
  ∃ out q', dequeue_all c q = Ok out q' ∧ data q' = [] ∧ out ≡ₚ data q ∧
            StronglySorted (fun x y => (priority y ≤ priority x)%Z) out.
Proof.
  intros Hwf Hh.
  destruct (dequeue_n_weak c (length (data q)) q Hwf Hh (le_n _))
    as (out & q' & Hrun & Hlen & Hsort).
  destruct (dequeue_n_perm c _ q out q' Hwf Hrun) as (Hperm & _).
  assert (data q' = []) as Hnil.
  { apply Permutation_length in Hperm. rewrite length_app in Hperm.
    apply length_zero_iff_nil. lia. }
  exists out, q'. split_and!; [done..| |done].
  by rewrite Hperm, Hnil, app_nil_r.
Qed.

Lemma dequeue_all_sorts_witness :
  ∃ out q', dequeue_all PatientHeapQueue
              (mkQueue [b9; a5; mkPatient "e" 9] 0 ∅ []) = Ok out q' ∧
            data q' = [] ∧ out ≡ₚ [b9; a5; mkPatient "e" 9] ∧
            StronglySorted (fun x y => (priority y ≤ priority x)%Z) out.
Proof.
  apply (dequeue_all_sorts PatientHeapQueue
           (mkQueue [b9; a5; mkPatient "e" 9] 0 ∅ [])).
  - exact I.
  - apply heap_invb_true. vm_compute. reflexivity.
Defined.

(** X4. Construction from a list returns in both modes and both classes,
    whatever the names, and the storage holds exactly the patients of the
    input, each as often as the input has it. *)
Theorem construction_keeps_contents c l fast :
  ∃ q', new c (Some l) fast = Ok tt q' ∧ data q' ≡ₚ l ∧
        length (data q') = length l.
Proof.
  destruct (new_spec c l fast) as (q' & Hrun & Hperm & _).
  exists q'. split_and!; [done..|]. by rewrite Hperm.
Qed.

(** ** Index arithmetic, seen from outside *)

(** X5. [_parent_index] undoes [_child_indices]: both children of an index
    have that index as parent and lie strictly after it, and every index
    other than the root is one of the children of its parent. *)
Theorem parent_of_child_indices :
  (∀ i ch, ch ∈ _child_indices i → _parent_index ch = i ∧ i < ch) ∧
  (∀ ch, ch ≠ 0 → ch ∈ _child_indices (_parent_index ch)).
Proof.
  split.
  - intros i ch Hin. rewrite child_indices_eq in Hin.
    assert (is_child i ch) as Hch.
    { apply elem_of_cons in Hin as [->|Hin]; [by left|].
      apply list_elem_of_singleton in Hin as ->. by right. }
    by destruct (is_child_parent i ch Hch) as (? & _ & ?).
  - intros ch Hne. rewrite child_indices_eq.
    destruct (parent_is_child ch Hne) as [Hc|Hc].
    + rewrite Hc at 1. by left.
    + rewrite Hc at 1. right. by left.
Qed.

Lemma parent_of_child_indices_witness :
  (_parent_index 8 = 3 ∧ 3 < 8) ∧ 7 ∈ _child_indices (_parent_index 7).
Proof.
  split.
  - apply (proj1 parent_of_child_indices 3 8). vm_compute.
    right. left.
  - apply (proj2 parent_of_child_indices 7). lia.
Defined.

(** ** Costs *)

Lemma log2_child p ch :
  is_child p ch → Nat.log2 (S ch) = S (Nat.log2 (S p)).
Proof.
  intros [-> | ->].
  - replace (S (2 * p + 1)) with (2 * S p) by lia.
    apply Nat.log2_double. lia.
  - replace (S (2 * p + 2)) with (2 * S p + 1) by lia.
    apply Nat.log2_succ_double. lia.
Qed.

Lemma sift_up_R_cost c i q q' :
  sift_up_R c i q q' → comparisons q' ≤ comparisons q + Nat.log2 (S i).
Proof.
  induction 1 as [|i q p x Hi Hp Hx Hle|i q p x q' Hi Hp Hx Hlt _ IH].
  - lia.
  - cbn [comparisons tick]. pose proof (Nat.log2_pos (S i)). lia.
  - rewrite (log2_child _ _ (parent_is_child i Hi)).
    cbn [comparisons tick swapped] in IH. lia.
Qed.

Lemma select_R_cost i q r q1 :
  select_R i q r q1 → comparisons q1 ≤ S (comparisons q).
Proof. destruct 1; cbn [comparisons tick]; lia. Qed.

Lemma sift_down_R_cost c i q q' :
  sift_down_R c i q q' →
  comparisons q' + 2 * Nat.log2 (S i)
  ≤ comparisons q + 2 * Nat.log2 (length (data q)).
Proof.
  induction 1 as [i q p Hp Hlen|i q q1 ci p y Hp Hsel Hy Hle
                  |i q q1 ci p y q' Hp Hsel Hy Hgt _ IH].
  - apply lookup_lt_Some in Hp.
    pose proof (Nat.log2_le_mono (S i) (length (data q))). lia.
  - pose proof (select_some _ _ _ _ Hsel) as (Hch & Hlt & _).
    pose proof (select_R_cost _ _ _ _ Hsel).
    pose proof (log2_child _ _ Hch).
    pose proof (Nat.log2_le_mono (S ci) (length (data q))).
    cbn [comparisons tick]. lia.
  - pose proof (select_some _ _ _ _ Hsel) as (Hch & Hlt & Hd & _).
    pose proof (select_R_cost _ _ _ _ Hsel).
    pose proof (log2_child _ _ Hch).
    rewrite swapped_length in IH.
    cbn [comparisons data tick swapped] in IH. rewrite Hd in IH. lia.
Qed.

Lemma dequeue_cost c q r q' :
  wf c q → dequeue c q = Ok r q' →
  comparisons q' ≤ comparisons q + 2 * Nat.log2 (length (data q) - 1).
Proof.
  intros Hwf Hrun. destruct (data q) as [|r0 rest] eqn:Hd.
  { by rewrite dequeue_empty in Hrun. }
  assert (∀ q0, data q0 = r0 :: rest → comparisons q0 = comparisons q →
            ∀ q1, base_dequeue c q0 = Ok r q1 →
            comparisons q1 ≤ comparisons q + 2 * Nat.log2 (length rest))
    as Hbase.
  { intros q0 Hd0 Hc0 q1 Hrun0.
    destruct (base_dequeue_run c q0 r0 rest Hd0) as (q2 & Hrun2 & Hq2).
    rewrite Hrun2 in Hrun0. simplify_eq.
    destruct Hq2 as [[-> ->]|(body & l & -> & HR)].
    { cbn [comparisons set_data]. lia. }
    apply sift_down_R_cost in HR.
    cbn [comparisons data set_data length] in HR.
    change (Nat.log2 1) with 0 in HR.
    rewrite length_app. cbn [length]. rewrite Nat.add_1_r. lia. }
  replace (length (r0 :: rest) - 1) with (length rest) by (simpl; lia).
  destruct c.
  { by apply (Hbase q). }
  cbn in Hwf. destruct (last (data q)) as [l|] eqn:Hl.
  2:{ apply last_None in Hl. congruence. }
  rewrite (dequeue_editable_book q r0 rest l Hd Hl (proj1 Hwf)) in Hrun.
  unfold bind in Hrun.
  destruct (base_dequeue _ (unindexed r0 l q)) as [r1 q1|] eqn:Hrun0; [|done].
  unfold ret in Hrun. simplify_eq. by eapply (Hbase (unindexed r0 l q)).
Qed.

Lemma remove_cost key q q' :
  pos_inv q → remove key q = Ok tt q' →
  comparisons q' ≤ comparisons q + 2 * Nat.log2 (length (data q) - 1).
Proof.
  intros Hp Hrun. pose proof Hp as [Hf Hb].
  destruct (indices q !! key) as [ri|] eqn:Hk.
  2:{ by rewrite remove_absent in Hrun. }
  pose proof (Hb _ _ Hk) as Hz.
  destruct (data q !! ri) as [z|] eqn:Hzri; [|done]. simplify_eq/=.
  destruct (data q) as [|l body _] eqn:Hd using rev_ind; [done|].
  rewrite <-Hd in Hzri.
  assert (data q !! length body = Some l) as Hlast.
  { rewrite Hd. by apply list_lookup_middle. }
  rewrite length_app. cbn [length]. rewrite Nat.add_sub.
  destruct (decide (name l = name z)) as [Heq|Hne].
  - rewrite (remove_last _ q _ body l Hk Hd Heq) in Hrun.
    simplify_eq. cbn [comparisons]. lia.
  - assert (ri < length body) as Hri.
    { pose proof (lookup_lt_Some _ _ _ Hzri) as Lz.
      rewrite Hd, length_app in Lz. simpl in Lz.
      destruct (decide (ri = length body)) as [->|]; [|lia]. congruence. }
    destruct (remove_run _ q ri body l Hk Hd Hne Hri)
      as (q3 & q4 & Hrun4 & HR3 & HR4).
    rewrite Hrun4 in Hrun. simplify_eq.
    pose proof (sift_up_R_cost _ _ _ _ HR3) as C3.
    pose proof (sift_down_R_cost _ _ _ _ HR4) as C4.
    rewrite (sift_up_R_stable _ (fun q0 => length (data q0) = length body)
               _ _ _ (stable_length _ _) HR3) in C4.
    2:{ cbn [data refilled]. by rewrite length_insert. }
    cbn [comparisons refilled] in C3. lia.
Qed.

(** X6. The number of priority comparisons is logarithmic in the size:
    [enqueue] into a queue of [n] patients adds at most [log2 (n+1)] to the
    counter, and a [dequeue] or a [remove] that returns from a well-formed
    queue of [n] patients adds at most [2 * log2 (n-1)]. *)
Theorem comparisons_are_logarithmic :
  (∀ c x q,
     comparisons (final (enqueue c x q))
     ≤ comparisons q + Nat.log2 (S (length (data q)))) ∧
  (∀ c q r q', wf c q → dequeue c q = Ok r q' →
     comparisons q' ≤ comparisons q + 2 * Nat.log2 (length (data q) - 1)) ∧
  (∀ key q q', pos_inv q → remove key q = Ok tt q' →
     comparisons q' ≤ comparisons q + 2 * Nat.log2 (length (data q) - 1)).
Proof.
  split_and!.
  - intros c x q. destruct (enqueue_run c x q) as (q' & -> & HR).
    apply sift_up_R_cost in HR. by destruct c.
  - apply dequeue_cost.
  - apply remove_cost.
Qed.

Lemma comparisons_are_logarithmic_witness :
  comparisons (final (dequeue EditablePatientHeapQueue q_ba))
  ≤ comparisons q_ba + 2 * Nat.log2 (length (data q_ba) - 1) ∧
  comparisons (final (remove "b" q_ba))
  ≤ comparisons q_ba + 2 * Nat.log2 (length (data q_ba) - 1).
Proof.
  destruct comparisons_are_logarithmic as (_ & Hdeq & Hrem).
  split.
  - eapply (Hdeq EditablePatientHeapQueue q_ba b9).
    + apply pos_invb_true. vm_compute. reflexivity.
    + vm_compute. reflexivity.
  - eapply (Hrem "b" q_ba).
    + apply pos_invb_true. vm_compute. reflexivity.
    + vm_compute. reflexivity.
Defined.

(** ** The internal helpers, on their own *)

Lemma sift_up_ok_R c i q q' :
  _sift_up c i q = Ok tt q' → sift_up_R c i q q'.
Proof.
  intros Hrun. destruct (decide (i = 0)) as [->|Hne].
  { change (Ok tt q = Ok tt q') in Hrun. injection Hrun as <-.
    apply su_root. }
  destruct (decide (i < length (data q))) as [Hlt|Hge].
  - destruct (sift_up_run c (S i) i q) as (q1 & Hrun1 & HR); [lia|done|].
    unfold _sift_up in Hrun. rewrite Hrun1 in Hrun. by simplify_eq.
  - exfalso. unfold _sift_up in Hrun. cbn [_sift_up_rec] in Hrun.
    rewrite decide_True in Hrun by done.
    unfold bind, get_item in Hrun.
    destruct (data q !! _parent_index i); [|done].
    rewrite (lookup_ge_None_2 (data q) i) in Hrun by lia. done.
Qed.

Lemma sift_down_ok_R c i q q' :
  _sift_down c i q = Ok tt q' → sift_down_R c i q q'.
Proof.
  intros Hrun. destruct (decide (i < length (data q))) as [Hlt|Hge].
  - destruct (sift_down_run c (S (length (data q))) i q)
      as (q1 & Hrun1 & HR); [lia|done|].
    unfold _sift_down in Hrun. rewrite Hrun1 in Hrun. by simplify_eq.
  - exfalso. unfold _sift_down in Hrun. cbn [_sift_down_rec] in Hrun.
    unfold bind, get_item in Hrun.
    rewrite (lookup_ge_None_2 (data q) i) in Hrun by lia. done.
Qed.

Lemma sift_up_R_frame c i q q' :
  sift_up_R c i q q' → ∀ k, i < k → data q' !! k = data q !! k.
Proof.
  induction 1 as [|i q p x|i q p x q' Hi Hp Hx Hlt _ IH]; intros k Hk;
    [done..|].
  pose proof (parent_lt i Hi). rewrite IH by lia.
  rewrite (swapped_lookup c i (_parent_index i) x p (tick p x q));
    [|lia|done..].
  rewrite !decide_False by lia. done.
Qed.

Lemma sift_down_R_frame c i q q' :
  sift_down_R c i q q' → ∀ k, k < i → data q' !! k = data q !! k.
Proof.
  induction 1 as [|i q q1 ci p y Hp Hsel Hy Hle
                  |i q q1 ci p y q' Hp Hsel Hy Hgt _ IH]; intros k Hk.
  - done.
  - pose proof (select_some _ _ _ _ Hsel) as (_ & _ & Hd & _).
    cbn [data tick]. by rewrite Hd.
  - pose proof (select_some _ _ _ _ Hsel) as (Hch & _ & Hd & _).
    destruct (is_child_parent _ _ Hch) as (_ & _ & ?).
    rewrite IH by lia.
    rewrite (swapped_lookup c i ci p y (tick y p q1));
      cbn [data tick]; rewrite ?Hd; [|lia|done..].
    rewrite !decide_False by lia. done.
Qed.

(** X7. A sift that returns only rearranges the storage: it keeps the same
    patients; [_sift_up index] leaves every slot after [index] as it was, and
    [_sift_down index] leaves every slot before [index] as it was. *)
Theorem sifts_rearrange_one_side :
  (∀ c i q q', _sift_up c i q = Ok tt q' →
     data q' ≡ₚ data q ∧ ∀ k, i < k → data q' !! k = data q !! k) ∧
  (∀ c i q q', _sift_down c i q = Ok tt q' →
     data q' ≡ₚ data q ∧ ∀ k, k < i → data q' !! k = data q !! k).
Proof.
  split.
  - intros c i q q' HR%sift_up_ok_R. split; [|by eapply sift_up_R_frame].
    by eapply (sift_up_R_stable c (fun q0 => data q0 ≡ₚ data q));
      [apply stable_perm|done|].
  - intros c i q q' HR%sift_down_ok_R. split; [|by eapply sift_down_R_frame].
    by eapply (sift_down_R_stable c (fun q0 => data q0 ≡ₚ data q));
      [apply stable_perm|done|].
Qed.

Lemma sifts_rearrange_one_side_witness :
  (data (final (_sift_up PatientHeapQueue 1 (mkQueue [a5; b9; c1] 0 ∅ [])))
     ≡ₚ [a5; b9; c1]) ∧
  (∀ k, k < 1 →
     data (final (_sift_down PatientHeapQueue 1
                    (mkQueue [a5; c1; d7; b9] 0 ∅ []))) !! k
     = [a5; c1; d7; b9] !! k).
Proof.
  destruct sifts_rearrange_one_side as [Hup Hdown]. split.
  - eapply (Hup PatientHeapQueue 1 (mkQueue [a5; b9; c1] 0 ∅ [])).
    vm_compute. reflexivity.
  - eapply (Hdown PatientHeapQueue 1 (mkQueue [a5; c1; d7; b9] 0 ∅ [])).
    vm_compute. reflexivity.
Defined.

(** X8. On a storage that already is a max-heap, both sifts return from
    every slot in range without moving anything: the storage and the
    name -> index map are left as they were. *)
Theorem sifts_leave_a_heap_alone c i q :
  heap_inv (data q) → i < length (data q) →
  (∃ q', _sift_up c i q = Ok tt q' ∧
         data q' = data q ∧ indices q' = indices q) ∧
  (∃ q', _sift_down c i q = Ok tt q' ∧
         data q' = data q ∧ indices q' = indices q).
Proof.
  rewrite heap_inv_alt. intros Hh Hi.
  destruct (lookup_lt_is_Some_2 (data q) i Hi) as [x Hx]. split.
  - destruct (decide (i = 0)) as [->|Hne]; [by exists q|].
    pose proof (parent_lt i Hne) as Hlt.
    destruct (lookup_lt_is_Some_2 (data q) (_parent_index i)) as [p Hp];
      [lia|].
    unfold _sift_up. rewrite (sift_up_rec_step c _ i q p x Hne Hp Hx).
    pose proof (Hh _ _ (parent_is_child i Hne) _ _ Hp Hx).
    rewrite bool_decide_eq_false_2 by lia. by eexists.
  - destruct (select_run i q) as (r & q1 & _ & Hsel).
    unfold _sift_down.
    rewrite (sift_down_rec_step c _ i q x r q1 Hx Hsel).
    destruct r as [ci|]; [|by exists q].
    pose proof (select_some _ _ _ _ Hsel) as (Hch & Hlt & Hd & Hind & _).
    destruct (lookup_lt_is_Some_2 (data q) ci Hlt) as [y Hy]. rewrite Hy.
    pose proof (Hh _ _ Hch _ _ Hx Hy).
    rewrite bool_decide_eq_false_2 by lia. by eexists.
Qed.

Lemma sifts_leave_a_heap_alone_witness :
  (∃ q', _sift_up EditablePatientHeapQueue 1 q_ba = Ok tt q' ∧
         data q' = data q_ba ∧ indices q' = indices q_ba) ∧
  (∃ q', _sift_down EditablePatientHeapQueue 1 q_ba = Ok tt q' ∧
         data q' = data q_ba ∧ indices q' = indices q_ba).
Proof.
  apply (sifts_leave_a_heap_alone EditablePatientHeapQueue 1 q_ba).
  - apply heap_invb_true. vm_compute. reflexivity.
  - simpl. lia.
Defined.

Lemma swap_raises c i j q :
  ¬ (i < length (data q) ∧ j < length (data q)) →
  _swap c i j q = Raise IndexError q.
Proof.
  intros Hout. unfold _swap, bind, get_item.
  destruct (data q !! j) as [xj|] eqn:Hj; [|done].
  destruct (data q !! i) as [xi|] eqn:Hi; [|done].
  apply lookup_lt_Some in Hi, Hj. lia.
Qed.

Lemma swap_same c i x q :
  data q !! i = Some x →
  _swap c i i q =
    Ok tt (match c with
           | PatientHeapQueue => q
           | EditablePatientHeapQueue =>
               set_indices (<[name x:=i]> (<[name x:=i]> (indices q))) q
           end).
Proof.
  intros Hi. pose proof (lookup_lt_Some _ _ _ Hi) as Li. unfold _swap.
  unfold bind at 1. unfold get_item at 1. rewrite Hi.
  unfold bind at 1. unfold get_item at 1. rewrite Hi.
  unfold bind at 1. unfold set_item at 1. rewrite decide_True by done.
  unfold bind at 1. unfold set_item at 1. cbn [data set_data].
  rewrite length_insert, decide_True by done.
  rewrite !(list_insert_id (data q) i x Hi).
  destruct c.
  - unfold ret. by destruct q.
  - unfold bind at 1. unfold get_item at 1. cbn [data set_data]. rewrite Hi.
    unfold bind at 1. unfold set_index at 1.
    unfold bind at 1. unfold get_item at 1. cbn [data set_data set_indices].
    rewrite Hi. unfold set_index. by destruct q.
Qed.

(** X9. [_swap] raises [IndexError] without changing anything when one of
    its slots is out of range; otherwise it returns, the two slots have
    exchanged their patients, every other slot and the counter are as
    before, and the editable override leaves a consistent name -> index map
    consistent. *)
Theorem swap_exchanges_or_raises c i j q :
  (¬ (i < length (data q) ∧ j < length (data q)) →
   _swap c i j q = Raise IndexError q) ∧
  (i < length (data q) → j < length (data q) →
   ∃ q', _swap c i j q = Ok tt q' ∧
     data q' !! i = data q !! j ∧ data q' !! j = data q !! i ∧
     (∀ k, k ≠ i → k ≠ j → data q' !! k = data q !! k) ∧
     comparisons q' = comparisons q ∧
     (c = EditablePatientHeapQueue → pos_inv q → pos_inv q')).
Proof.
  split; [apply swap_raises|]. intros Hi Hj.
  destruct (lookup_lt_is_Some_2 (data q) i Hi) as [xi Hxi].
  destruct (lookup_lt_is_Some_2 (data q) j Hj) as [xj Hxj].
  destruct (decide (i = j)) as [->|Hne].
  - rewrite (swap_same c j xi q Hxi). eexists. split; [done|].
    assert (xj = xi) as -> by congruence.
    split_and!; [by destruct c..|].
    intros -> [Hf Hb]. cbn [set_indices].
    rewrite insert_insert_eq, insert_id by (by apply Hf). by destruct q.
  - exists (swapped c i j xi xj q). rewrite (swap_ok c i j xi xj q) by done.
    rewrite !(swapped_lookup c i j xi xj q) by done.
    rewrite decide_False, !decide_True by done.
    split_and!; [done..| |done|].
    + intros k ? ?. rewrite (swapped_lookup c i j xi xj q) by done.
      by rewrite !decide_False.
    + intros -> [? ?].
      split; [by apply swapped_pos_fwd|by apply swapped_pos_bwd].
Qed.

Lemma swap_exchanges_or_raises_witness :
  _swap EditablePatientHeapQueue 0 2 q_ba = Raise IndexError q_ba ∧
  (∃ q', _swap EditablePatientHeapQueue 0 1 q_ba = Ok tt q' ∧
     data q' !! 0 = data q_ba !! 1 ∧ data q' !! 1 = data q_ba !! 0 ∧
     (∀ k, k ≠ 0 → k ≠ 1 → data q' !! k = data q_ba !! k) ∧
     comparisons q' = comparisons q_ba ∧
     (EditablePatientHeapQueue = EditablePatientHeapQueue →
      pos_inv q_ba → pos_inv q')).
Proof.
  split.
  - apply (proj1 (swap_exchanges_or_raises EditablePatientHeapQueue 0 2 q_ba)).
    simpl. lia.
  - apply (proj2 (swap_exchanges_or_raises EditablePatientHeapQueue 0 1 q_ba)).
    + simpl. lia.
    + simpl. lia.
Defined.

Lemma max_child_loop_stops post m q :
  (∀ k, head post = Some k → length (data q) ≤ k) →
  max_child_loop post m q = Ok m q.
Proof.
  intros Hpost. destruct post as [|k post]; [done|].
  cbn [max_child_loop]. unfold bind, len_data.
  by rewrite decide_True by (by apply Hpost).
Qed.

Lemma max_child_loop_run pre : ∀ post before m after q,
  Forall (fun k => k < length (data q)) pre → m < length (data q) →
  (∀ k, head post = Some k → length (data q) ≤ k) →
  first_max (data q) before m after →
  ∃ before' m' after' q',
    max_child_loop (pre ++ post) (Some m) q = Ok (Some m') q' ∧
    before ++ m :: after ++ pre = before' ++ m' :: after' ∧
    first_max (data q) before' m' after' ∧
    data q' = data q ∧ indices q' = indices q ∧
    comparisons q' = comparisons q + length pre.
Proof.
  induction pre as [|k pre IH]; intros post before m after q Hpre Hm Hpost Hbest.
  { exists before, m, after, q. rewrite app_nil_r, Nat.add_0_r.
    split_and!; [|done..]. by apply max_child_loop_stops. }
  apply Forall_cons in Hpre as [Hk Hpre].
  destruct (lookup_lt_is_Some_2 (data q) k Hk) as [a Ha].
  destruct (lookup_lt_is_Some_2 (data q) m Hm) as [b Hb].
  cbn [app max_child_loop]. unfold bind at 1. unfold len_data at 1.
  rewrite decide_False by lia.
  unfold bind at 1. unfold incr_comparisons at 1.
  unfold bind at 1. unfold get_item at 1. cbn [data]. rewrite Ha.
  unfold bind at 1. unfold get_item at 1. cbn [data]. rewrite Hb.
  unfold bind at 1. unfold priority_gt at 1.
  cbn [data comparisons indices cmp_log]. fold (tick a b q).
  destruct Hbest as [Hbefore Hafter].
  case_bool_decide as Hcmp.
  - destruct (IH post (before ++ m :: after) k [] (tick a b q))
      as (before' & m' & after' & q' & Hrun & Hsplit & Hbest' & Hd & Hi & Hc);
      [done..| |].
    { split; [|by intros ? ? ? ?%elem_of_nil].
      intros j x y Hj%elem_of_app Hx Hy. cbn [data tick] in Hx, Hy.
      simplify_eq. destruct Hj as [Hj|[->|Hj]%elem_of_cons].
      - pose proof (Hbefore j x b Hj Hx Hb). lia.
      - simplify_eq. lia.
      - pose proof (Hafter j x b Hj Hx Hb). lia. }
    exists before', m', after', q'. rewrite Hrun.
    split_and!; [done| |done..|].
    + rewrite <-Hsplit. by rewrite <-!app_assoc.
    + rewrite Hc. cbn. lia.
  - destruct (IH post before m (after ++ [k]) (tick a b q))
      as (before' & m' & after' & q' & Hrun & Hsplit & Hbest' & Hd & Hi & Hc);
      [done..| |].
    { split; [done|].
      intros j x y Hj%elem_of_app Hx Hy. cbn [data tick] in Hx, Hy.
      simplify_eq. destruct Hj as [Hj|Hj%list_elem_of_singleton].
      - by eapply Hafter.
      - simplify_eq. lia. }
    exists before', m', after', q'. rewrite Hrun.
    split_and!; [done| |done..|].
    + rewrite <-Hsplit. by rewrite <-!app_assoc.
    + rewrite Hc. cbn. lia.
Qed.

(** X10. [_max_child_priority_index] on any list of slots looks at the
    slots before the first one that is out of range ([pre]) and ignores the
    rest: with no such slot it returns [None]; otherwise it returns the
    first slot of [pre] whose patient has the greatest priority among them
    (earlier slots are strictly smaller, later ones smaller or equal),
    after exactly [len(pre) - 1] comparisons, and it changes neither the
    storage nor the map. *)
Theorem max_child_priority_index_general cs pre post q :
  cs = pre ++ post →
  Forall (fun k => k < length (data q)) pre →
  (∀ k, head post = Some k → length (data q) ≤ k) →
  ∃ r q', _max_child_priority_index cs q = Ok r q' ∧
    data q' = data q ∧ indices q' = indices q ∧
    comparisons q' = comparisons q + (length pre - 1) ∧
    match r with
    | None => pre = []
    | Some m => ∃ before after,
        pre = before ++ m :: after ∧ first_max (data q) before m after
    end.
Proof.
  intros -> Hpre Hpost. unfold _max_child_priority_index.
  destruct pre as [|k pre].
  { exists None, q. rewrite max_child_loop_stops by done.
    split_and!; [done..|simpl; lia|done]. }
  apply Forall_cons in Hpre as [Hk Hpre].
  cbn [app max_child_loop]. unfold bind, len_data.
  rewrite decide_False by lia.
  destruct (max_child_loop_run pre post [] k [] q)
    as (before' & m' & after' & q' & Hrun & Hsplit & Hbest' & Hd & Hi & Hc);
    [done..| |].
  { split; by intros ? ? ? ?%elem_of_nil. }
  exists (Some m'), q'. rewrite Hrun.
  split_and!; [done..| |by exists before', after'].
  rewrite Hc. simpl. lia.
Qed.

Lemma max_child_priority_index_general_witness :
  ∃ r q', _max_child_priority_index [0; 2; 1; 7; 3]
            (mkQueue [a5; b9; d7; c1] 0 ∅ []) = Ok r q' ∧
    data q' = [a5; b9; d7; c1] ∧ indices q' = ∅ ∧
    comparisons q' = 0 + (length [0; 2; 1] - 1) ∧
    match r with
    | None => [0; 2; 1] = []
    | Some m => ∃ before after,
        [0; 2; 1] = before ++ m :: after ∧
        first_max [a5; b9; d7; c1] before m after
    end.
Proof.
  apply (max_child_priority_index_general [0; 2; 1; 7; 3] [0; 2; 1] [7; 3]
           (mkQueue [a5; b9; d7; c1] 0 ∅ [])).
  - reflexivity.
  - repeat constructor.
  - intros k [= <-]. simpl. lia.
Defined.

(** ** How the operations compose *)

(** X11. In a well-formed editable queue, a patient enqueued under a name
    the map does not hold can be found through the map afterwards (the map
    records the slot that holds it), and removing that name then returns and
    leaves exactly the patients the queue held before the enqueue, with the
    map consistent again and a max-heap still a max-heap. *)
Theorem enqueue_then_remove x q :
  pos_inv q → indices q !! name x = None →
  ∃ q1 i q2,
    enqueue EditablePatientHeapQueue x q = Ok tt q1 ∧
    indices q1 !! name x = Some i ∧ data q1 !! i = Some x ∧
    remove (name x) q1 = Ok tt q2 ∧
    data q2 ≡ₚ data q ∧ pos_inv q2 ∧
    (heap_inv (data q) → heap_inv (data q2)).
Proof.
  intros Hp Hfresh.
  destruct (enqueue_spec EditablePatientHeapQueue x q)
    as (q1 & Hrun1 & Hperm1 & Hheap1 & Hpos1).
  specialize (Hpos1 Hp Hfresh eq_refl).
  assert (x ∈ data q1) as [i Hi]%list_elem_of_lookup.
  { rewrite Hperm1. apply elem_of_app. right. by left. }
  pose proof (proj1 Hpos1 _ _ Hi) as Hk.
  destruct (remove_spec (name x) q1 i Hpos1 Hk)
    as (z & q2 & Hrun2 & Hz & Hn & Hperm2 & Hpos2 & Hheap2 & _).
  assert (z = x) as -> by congruence.
  exists q1, i, q2. split_and!; [done..| |done|by auto].
  apply (Permutation_cons_inv (a := x)).
  by rewrite <-Hperm2, Hperm1, Permutation_app_comm.
Qed.

Lemma enqueue_then_remove_witness :
  ∃ q1 i q2,
    enqueue EditablePatientHeapQueue d7 q_ba = Ok tt q1 ∧
    indices q1 !! name d7 = Some i ∧ data q1 !! i = Some d7 ∧
    remove (name d7) q1 = Ok tt q2 ∧
    data q2 ≡ₚ data q_ba ∧ pos_inv q2 ∧
    (heap_inv (data q_ba) → heap_inv (data q2)).
Proof.
  apply (enqueue_then_remove d7 q_ba).
  - apply pos_invb_true. vm_compute. reflexivity.
  - vm_compute. reflexivity.
Defined.

(** X12. With pairwise distinct priorities, removing a recorded name from a
    well-formed editable max-heap and then dequeuing until empty returns
    what dequeuing until empty would have returned without the remove,
    less the removed patient and in the same order. *)
Theorem remove_then_dequeue_all key q ri :
  pos_inv q → heap_inv (data q) → NoDup (priority <$> data q) →
  indices q !! key = Some ri →
  ∃ z out,
    data q !! ri = Some z ∧
    run_list (dequeue_all EditablePatientHeapQueue q) = Some out ∧
    run_list (then_run (remove key q) (dequeue_all EditablePatientHeapQueue))
      = Some (filter (fun y => y ≠ z) out).
Proof.
  intros Hp Hh Hnd Hk.
  destruct (dequeue_all_spec EditablePatientHeapQueue q Hp Hh Hnd)
    as (out & qe & Hrun & _ & Hperm & Hdesc).
  destruct (remove_spec key q ri Hp Hk)
    as (z & q' & Hrun' & Hz & Hn & Hperm' & Hp' & Hheap' & _).
  assert (NoDup (priority <$> z :: data q')) as Hnd' by by rewrite <-Hperm'.
  rewrite fmap_cons in Hnd'. apply NoDup_cons in Hnd' as [Hnotin Hnd'].
  destruct (dequeue_all_spec EditablePatientHeapQueue q' Hp' (Hheap' Hh) Hnd')
    as (out' & qe' & Hrun2 & _ & Hperm2 & Hdesc2).
  exists z, out. rewrite Hrun, Hrun'. cbn. rewrite Hrun2. cbn.
  split_and!; [done..|]. f_equal.
  apply (StronglySorted_unique_strong
           (fun x y => (priority x > priority y)%Z)); [|done| |].
  - intros x1 x2 _ _ ? ?. lia.
  - unfold descending in Hdesc. clear -Hdesc.
    induction Hdesc as [|x l Hs IH Hall]; [constructor|].
    rewrite filter_cons. case_decide; [|done].
    constructor; [done|]. apply Forall_forall. intros y Hy.
    apply list_elem_of_filter in Hy as [_ Hy].
    rewrite Forall_forall in Hall. by apply Hall.
  - rewrite Hperm2, Hperm, Hperm'. rewrite filter_cons_False by (by intros ?).
    clear -Hnotin. induction (data q') as [|y l IH]; [done|].
    rewrite fmap_cons in Hnotin. apply not_elem_of_cons in Hnotin as [Hne ?].
    rewrite filter_cons_True by (intros ->; done). by rewrite <-IH.
Qed.

Lemma remove_then_dequeue_all_witness :
  ∃ z out,
    data q_ba !! 0 = Some z ∧
    run_list (dequeue_all EditablePatientHeapQueue q_ba) = Some out ∧
    run_list (then_run (remove "b" q_ba)
                (dequeue_all EditablePatientHeapQueue))
      = Some (filter (fun y => y ≠ z) out).
Proof.
  apply (remove_then_dequeue_all "b" q_ba 0).
  - apply pos_invb_true. vm_compute. reflexivity.
  - apply heap_invb_true. vm_compute. reflexivity.
  - apply (bool_decide_unpack _). vm_compute. reflexivity.
  - vm_compute. reflexivity.
Defined.

(** X13. Asking a well-formed queue for more patients than it holds fails:
    the dequeues drain it, the first one after that raises [IndexError], and
    the queue is left empty and well-formed. *)
Theorem dequeue_past_the_end c n q :
  wf c q → length (data q) < n →
  ∃ q', dequeue_n c n q = Raise IndexError q' ∧ data q' = [] ∧ wf c q'.
Proof.
  revert q. induction n as [|n IH]; intros q Hwf Hn; [lia|].
  cbn [dequeue_n]. unfold bind at 1.
  destruct (data q) as [|r rest] eqn:Hd.
  { exists q. by rewrite dequeue_empty. }
  destruct (dequeue_spec c q r rest Hwf Hd)
    as (q1 & -> & Hperm & _ & Hwf1 & _).
  destruct (IH q1 Hwf1) as (q' & Hrun & Hnil & Hwf').
  { rewrite Hperm. simpl in Hn. lia. }
  exists q'. unfold bind. by rewrite Hrun.
Qed.

Lemma dequeue_past_the_end_witness :
  ∃ q', dequeue_n EditablePatientHeapQueue 3 q_ba = Raise IndexError q' ∧
        data q' = [] ∧ wf EditablePatientHeapQueue q'.
Proof.
  apply (dequeue_past_the_end EditablePatientHeapQueue 3 q_ba).
  - apply pos_invb_true. vm_compute. reflexivity.
  - simpl. lia.
Defined.

(** X14. A patient who strictly outranks everyone in a well-formed max-heap
    (and, for the editable class, whose name the map does not hold) is the
    next one out: enqueue followed by dequeue returns that patient and
    leaves the patients the queue held before. *)
Theorem enqueue_then_dequeue c x q :
  wf c q → heap_inv (data q) →
  (c = EditablePatientHeapQueue → indices q !! name x = None) →
  (∀ y, y ∈ data q → (priority y < priority x)%Z) →
  ∃ q1 q2, enqueue c x q = Ok tt q1 ∧ dequeue c q1 = Ok x q2 ∧
           data q2 ≡ₚ data q ∧ wf c q2 ∧ heap_inv (data q2).
Proof.
  intros Hwf Hh Hfresh Hmax.
  destruct (enqueue_spec c x q) as (q1 & Hrun1 & Hperm1 & Hheap1 & Hpos1).
  assert (wf c q1) as Hwf1.
  { destruct c; [done|]. by apply Hpos1; auto. }
  specialize (Hheap1 Hh).
  destruct (data q1) as [|r rest] eqn:Hd.
  { apply Permutation_length in Hperm1. rewrite length_app in Hperm1.
    simpl in Hperm1. lia. }
  destruct (dequeue_spec c q1 r rest Hwf1 Hd)
    as (q2 & Hrun2 & Hperm2 & Hheap2 & Hwf2 & _).
  rewrite Hd in Hheap2.
  assert (r = x) as ->.
  { assert (x ∈ r :: rest) as Hx.
    { rewrite Hperm1. apply elem_of_app. right. by left. }
    pose proof (heap_inv_root_max _ r Hheap1 eq_refl x Hx) as Hle.
    assert (r ∈ data q ++ [x]) as Hr by (rewrite <-Hperm1; by left).
    apply elem_of_app in Hr as [Hr|Hr%list_elem_of_singleton]; [|done].
    pose proof (Hmax r Hr). lia. }
  exists q1, q2. split_and!; [done..| |done|by auto].
  rewrite Hperm2. apply (Permutation_cons_inv (a := x)).
  by rewrite Hperm1, Permutation_app_comm.
Qed.

Lemma enqueue_then_dequeue_witness :
  ∃ q1 q2, enqueue EditablePatientHeapQueue (mkPatient "z" 20) q_ba
             = Ok tt q1 ∧
           dequeue EditablePatientHeapQueue q1 = Ok (mkPatient "z" 20) q2 ∧
           data q2 ≡ₚ data q_ba ∧ wf EditablePatientHeapQueue q2 ∧
           heap_inv (data q2).
Proof.
  apply (enqueue_then_dequeue EditablePatientHeapQueue
           (mkPatient "z" 20) q_ba).
  - apply pos_invb_true. vm_compute. reflexivity.
  - apply heap_invb_true. vm_compute. reflexivity.
  - intros _. vm_compute. reflexivity.
  - intros y Hy. apply (Forall_forall (fun y => (priority y < 20)%Z)
                          (data q_ba)); [|done].
    repeat constructor; simpl; lia.
Defined.

(** ** The cost of construction *)

Lemma pow2_log2_le n : 1 ≤ n → 2 ^ Nat.log2 n ≤ n.
Proof. intros Hn. by apply Nat.log2_spec. Qed.

Lemma sum_log2_lower n :
  1 ≤ n →
  n * Nat.log2 n + Nat.log2 n + 2 ≤ sum_log2 n + 2 ^ S (Nat.log2 n).
Proof.
  induction n as [|n IH]; [lia|]. intros _.
  destruct n as [|n]; [cbn; lia|].
  specialize (IH ltac:(lia)).
  set (m := S n) in *.
  change (sum_log2 (S m)) with (sum_log2 m + Nat.log2 (S m)).
  destruct (Nat.log2_succ_or m) as [Hjump|Hsame].
  - destruct (Nat.log2_eq_succ_is_pow2 m Hjump) as [b Hb].
    assert (Nat.log2 (S m) = b) as HL.
    { rewrite Hb. apply Nat.log2_pow2. lia. }
    rewrite Hjump in HL. rewrite Hjump.
    assert (2 ^ S (Nat.log2 m) = S m) as Hp by (rewrite HL; done).
    rewrite (Nat.pow_succ_r' 2 (S (Nat.log2 m))), Hp. rewrite Hp in IH.
    generalize dependent (Nat.log2 m). intros L. intros. nia.
  - rewrite Hsame. generalize dependent (Nat.log2 m). intros L. intros. nia.
Qed.

Lemma sum_log2_linear n : n * Nat.log2 n ≤ sum_log2 n + 2 * n.
Proof.
  destruct (decide (n = 0)) as [->|Hn]; [done|].
  assert (1 ≤ n) as H1 by lia.
  pose proof (sum_log2_lower n H1) as Hlow.
  pose proof (pow2_log2_le n H1) as Hpow.
  rewrite Nat.pow_succ_r' in Hlow. lia.
Qed.

Lemma sum_log2_upper n : sum_log2 n ≤ n * Nat.log2 n.
Proof.
  assert (∀ k m, k ≤ m → sum_log2 k ≤ k * Nat.log2 m) as H.
  { induction k as [|k IH]; intros m Hk; [done|]. cbn [sum_log2].
    specialize (IH m ltac:(lia)).
    pose proof (Nat.log2_le_mono (S k) m Hk). nia. }
  by apply H.
Qed.

Lemma heapify_cost c l q :
  ∃ q', _heapify c l q = Ok tt q' ∧
        comparisons q' + sum_log2 (length (data q))
        ≤ comparisons q + sum_log2 (length (data q) + length l).
Proof.
  revert q. induction l as [|x l IH]; intros q.
  { exists q. rewrite Nat.add_0_r. done. }
  destruct (enqueue_run c x q) as (q1 & Hrun1 & HR1).
  destruct (IH q1) as (q' & Hrun & Hcost).
  exists q'. unfold _heapify in *. cbn [for_each]. unfold bind.
  rewrite Hrun1. split; [done|].
  pose proof (sift_up_R_cost _ _ _ _ HR1) as C1.
  assert (length (data q1) = S (length (data q))) as Hlen.
  { rewrite (sift_up_R_stable c
               (fun q0 => length (data q0) = S (length (data q))) _ _ _
               (stable_length _ _) HR1); [done|].
    destruct c; cbn; rewrite length_app; simpl; lia. }
  rewrite Hlen in Hcost. cbn [sum_log2 length] in Hcost.
  replace (length (data q) + length (x :: l))
    with (S (length (data q)) + length l) by (simpl; lia).
  assert (comparisons (pushed c x q) = comparisons q) as Hc by by destruct c.
  lia.
Qed.

Lemma sift_down_loop_cost c k q :
  k ≤ length (data q) →
  ∃ q', for_each (_sift_down c) (range_down k) q = Ok tt q' ∧
        comparisons q' + 2 * sum_log2 k
        ≤ comparisons q + 2 * (k * Nat.log2 (length (data q))).
Proof.
  revert q. induction k as [|k IH]; intros q Hk.
  { exists q. split; [done|]. cbn. lia. }
  rewrite range_down_S. cbn [for_each]. unfold bind.
  destruct (sift_down_run c (S (length (data q))) k q)
    as (q1 & Hrun1 & HR1); [lia|lia|].
  unfold _sift_down at 1. rewrite Hrun1.
  assert (length (data q1) = length (data q)) as Hlen.
  { by rewrite (sift_down_R_stable c
                  (fun q0 => length (data q0) = length (data q)) _ _ _
                  (stable_length _ _) HR1). }
  destruct (IH q1) as (q' & Hrun & Hcost); [lia|].
  exists q'. split; [done|]. rewrite Hlen in Hcost.
  pose proof (sift_down_R_cost _ _ _ _ HR1) as C1.
  cbn [sum_log2]. nia.
Qed.

(** X15. Construction makes few comparisons: building a queue of [n]
    patients by repeated enqueue leaves the counter at no more than
    [n * log2 n], and building it by the linear heapify leaves it at no
    more than [4 * n], in both classes and whatever the names. *)
Theorem construction_cost c l :
  comparisons (final (new c (Some l) false))
    ≤ length l * Nat.log2 (length l) ∧
  comparisons (final (new c (Some l) true)) ≤ 4 * length l.
Proof.
  set (m := match c with
            | PatientHeapQueue => ∅
            | EditablePatientHeapQueue => seed ∅ (imap pair l)
            end).
  set (q0 := mkQueue [] 0 m []).
  assert (∀ fast, new c (Some l) fast =
          (if fast then _fast_heapify c l else _heapify c l) q0) as Hnew.
  { intros fast. unfold new. destruct c; [done|]. cbn [__init__].
    unfold bind at 1. unfold bind at 1. unfold enumerate, ret.
    unfold bind at 1. rewrite for_each_seed. done. }
  rewrite !Hnew. split.
  - destruct (heapify_cost c l q0) as (q' & -> & Hcost).
    change (comparisons q0) with 0 in Hcost.
    change (data q0) with (@nil Patient) in Hcost.
    cbn [length sum_log2 Nat.add] in Hcost.
    pose proof (sum_log2_upper (length l)). cbn [final]. lia.
  - unfold _fast_heapify. unfold bind at 1. rewrite for_each_append.
    change (data q0) with (@nil Patient). cbn [app].
    unfold bind, len_data. cbn [data set_data].
    destruct (sift_down_loop_cost c (length l) (set_data l q0))
      as (q' & -> & Hcost); [done|].
    cbn [data set_data comparisons] in Hcost.
    change (comparisons q0) with 0 in Hcost.
    pose proof (sum_log2_linear (length l)). cbn [final]. lia.
Qed.
